(** * zoekt-dynamic-indexserver: the HTTP indexing controller

    A shallow embedding of the dynamic index server's [main.go]
    ([loggedRun], [executeCmd], [indexRepository], [serveIndex],
    [serveTruncate], [emptyDirectory], [parseOptions]) together with a
    model of the parts of the Go runtime the program calls into:
    [strconv.FormatUint], [path/filepath], [encoding/json] decoding of
    the [indexRequest] struct, [os/exec] under a [context] deadline,
    [os.Stat], [os.MkdirAll], [ioutil.ReadDir] and [os.RemoveAll] over a
    directory tree that is walked element by element, and the
    [net/http] response writer.

    The program is effectful; every function threads a [World]
    explicitly.  Functions of the Go standard library keep their
    package name as a prefix ([filepath_Join], [os_RemoveAll], ...),
    functions of the program keep their own name. *)

From Stdlib Require Import String Ascii List ZArith NArith Lia Bool.
From Stdlib Require Import Permutation DecimalString DecimalPos DecimalN.
Import ListNotations.

Local Open Scope string_scope.
Local Open Scope list_scope.

(* ================================================================= *)
(** * Go runtime: strings, numbers, paths *)

(** [strconv.FormatUint(n, 10)], which is also what [fmt.Sprintf("%d", n)]
    prints for an unsigned integer. *)
Definition strconv_FormatUint (n : N) : string :=
  NilZero.string_of_uint (N.to_uint n).

(** [uint32]: the values a [RepoID] ranges over. *)
Definition is_uint32 (n : N) : Prop := (n < 2 ^ 32)%N.

(** [strings.Join(elems, "/")]. *)
Fixpoint join_sep (elems : list string) : string :=
  match elems with
  | [] => ""
  | [x] => x
  | x :: xs => x ++ "/" ++ join_sep xs
  end.

(** The path elements of a string: the maximal runs between separators.
    ["/a//b"] has the elements [""; "a"; ""; "b"]. *)
Fixpoint elements (s : string) : list string :=
  match s with
  | EmptyString => [EmptyString]
  | String c s' =>
      if Ascii.eqb c "/" then EmptyString :: elements s'
      else match elements s' with
           | x :: xs => String c x :: xs
           | [] => [String c EmptyString]
           end
  end.

(** [filepath.IsAbs] on Unix. *)
Definition filepath_IsAbs (path : string) : bool := String.prefix "/" path.

(** One step of the lexical cleaning loop of [filepath.Clean], on whole
    path elements.  [out] is the output written so far, last element
    first.  An empty element and ["."] are dropped; [".."] removes the
    last real element, is dropped at the root of a rooted path, and is
    kept at the front of a path that is not rooted. *)
Definition clean_step (rooted : bool) (out : list string) (e : string)
  : list string :=
  if (e =? "") || (e =? ".") then out
  else if e =? ".." then
    match out with
    | top :: rest => if top =? ".." then e :: out else rest
    | [] => if rooted then [] else [e]
    end
  else e :: out.

Definition clean_elements (rooted : bool) (es : list string) (out : list string)
  : list string :=
  fold_left (clean_step rooted) es out.

(** [filepath.Clean] on Unix. *)
Definition filepath_Clean (path : string) : string :=
  if path =? "" then "."
  else
    let rooted := filepath_IsAbs path in
    let out := rev (clean_elements rooted (elements path) []) in
    if rooted then "/" ++ join_sep out
    else match out with
         | [] => "."
         | _ => join_sep out
         end.

(** [filepath.Join] on Unix: leading empty elements are skipped, the rest
    is joined with the separator and cleaned. *)
Fixpoint filepath_Join (elem : list string) : string :=
  match elem with
  | [] => ""
  | e :: rest =>
      if e =? "" then filepath_Join rest
      else filepath_Clean (join_sep elem)
  end.

(* ================================================================= *)
(** * Go runtime: errors, the directory tree, processes *)

(** The [error] values the program can meet. *)
Inductive error : Type :=
| ENOENT (path : string)            (* no such file or directory *)
| ENOTDIR (path : string)           (* not a directory *)
| EBUSY (path : string)             (* unlinkat: device or resource busy *)
| ErrNotFound (name : string)       (* exec: executable file not found *)
| ExitError (code : Z)              (* exit status <code> *)
| Killed                            (* signal: killed *)
| DeadlineExceeded                  (* context deadline exceeded *)
| ErrEOF                            (* json: empty body *)
| SyntaxError                       (* json: invalid character ... *)
| UnknownField (key : string)       (* json: unknown field "<key>" *)
| UnmarshalTypeError (field : string).

Inductive result (A : Type) : Type :=
| Ok (a : A)
| Err (e : error).
Arguments Ok {A} a.
Arguments Err {A} e.

(** A file-system object.  [busy] marks an object the kernel refuses to
    unlink (a mount point, an immutable file): the one way a removal
    fails in this model.  Symbolic links are not represented. *)
#[warnings="-register-all"] Inductive node : Type :=
| File (busy : bool)
| Dir (busy : bool) (entries : list (string * node)).

Fixpoint find_entry (name : string) (es : list (string * node)) : option node :=
  match es with
  | [] => None
  | (k, c) :: rest => if k =? name then Some c else find_entry name rest
  end.

(** The object a list of path elements leads to, from [n]. *)
Fixpoint lookup (p : list string) (n : node) {struct p} : option node :=
  match p with
  | [] => Some n
  | e :: p' =>
      match n with
      | Dir _ es =>
          match find_entry e es with
          | Some c => lookup p' c
          | None => None
          end
      | File _ => None
      end
  end.

(** Rewrites the first entry called [name] with [g]; [None] unlinks it. *)
Fixpoint alter_entry (name : string) (g : node -> option node)
    (es : list (string * node)) : list (string * node) :=
  match es with
  | [] => []
  | (k, c) :: rest =>
      if k =? name then
        match g c with
        | Some c' => (k, c') :: rest
        | None => rest
        end
      else (k, c) :: alter_entry name g rest
  end.

Fixpoint alter (g : node -> option node) (p : list string) (n : node)
    {struct p} : option node :=
  match p with
  | [] => g n
  | e :: p' =>
      match n with
      | Dir b es => Some (Dir b (alter_entry e (alter g p') es))
      | File _ => Some n
      end
  end.

(** What [os.RemoveAll] leaves of an object: it "removes everything it
    can"; [None] when nothing is left. *)
Fixpoint purge (n : node) : option node :=
  match n with
  | File busy => if busy then Some n else None
  | Dir busy es =>
      let kept :=
        (fix go (es : list (string * node)) : list (string * node) :=
           match es with
           | [] => []
           | (k, c) :: rest =>
               match purge c with
               | Some c' => (k, c') :: go rest
               | None => go rest
               end
           end) es in
      match kept, busy with
      | [], false => None
      | _, _ => Some (Dir busy kept)
      end
  end.

(** Directory listings come back sorted by file name. *)
Fixpoint insert_name (x : string) (l : list string) : list string :=
  match l with
  | [] => [x]
  | y :: l' => if String.leb x y then x :: l else y :: insert_name x l'
  end.

Fixpoint sort_names (l : list string) : list string :=
  match l with
  | [] => []
  | x :: l' => insert_name x (sort_names l')
  end.

(** What becomes of a command, as far as the server can observe: the
    program is not found on the path, the process cannot be started, or
    it runs for a while and exits. *)
Inductive ProcResult : Type :=
| NotFound
| StartFailed (err : error)
| Exited (code : Z) (stdout stderr : string) (elapsed : Z).

(** [context.Context] as used here: a deadline on the monotonic clock. *)
Record Context : Type := mkContext { deadline : Z }.

(** [exec.Cmd]: the context it was built under and its argument vector,
    program name first.  Standard input is always the empty buffer. *)
Record Cmd : Type := mkCmd { Ctx : Context; Args : list string }.

Inductive LogLine : Type :=
| LogRun (args : list string)
| LogCommandFailed (args : list string) (err : error) (out errout : string)
| LogDecodeError (err : error)
| LogRepoPathError (err : error)
| LogEmptyRepoDir (repoDir : string) (err : error)
| LogEmptyIndexDir (repoDir : string) (err : error).

(** What the server does to the outside, in order. *)
Inductive Event : Type :=
| ExecuteCmd (ctx : Context) (argv : list string)  (* a call of executeCmd *)
| Spawn (at_time : Z) (argv : list string)         (* a child process started *)
| Log (line : LogLine)
| ReadDir (path : string)
| RemoveAll (path : string).

Record World : Type := mkWorld {
  fs : node;                          (* the tree below "/" *)
  cwd : list string;                  (* working directory of the server *)
  now : Z;                            (* monotonic clock, nanoseconds *)
  spawn : list string -> ProcResult;  (* the programs installed *)
  trace : list Event
}.

Definition emit (e : Event) (w : World) : World :=
  mkWorld (fs w) (cwd w) (now w) (spawn w) (trace w ++ [e]).

Definition set_now (t : Z) (w : World) : World :=
  mkWorld (fs w) (cwd w) t (spawn w) (trace w).

Definition set_fs (n : node) (w : World) : World :=
  mkWorld n (cwd w) (now w) (spawn w) (trace w).

Definition log_Printf (line : LogLine) (w : World) : World := emit (Log line) w.

(** ** Views of a trace *)

Fixpoint cmdHistory (t : list Event) : list (list string) :=
  match t with
  | [] => []
  | ExecuteCmd _ argv :: t' => argv :: cmdHistory t'
  | _ :: t' => cmdHistory t'
  end.

Fixpoint contexts (t : list Event) : list Context :=
  match t with
  | [] => []
  | ExecuteCmd ctx _ :: t' => ctx :: contexts t'
  | _ :: t' => contexts t'
  end.

Fixpoint spawned (t : list Event) : list (Z * list string) :=
  match t with
  | [] => []
  | Spawn at_time argv :: t' => (at_time, argv) :: spawned t'
  | _ :: t' => spawned t'
  end.

Fixpoint logged (t : list Event) : list LogLine :=
  match t with
  | [] => []
  | Log l :: t' => l :: logged t'
  | _ :: t' => logged t'
  end.

Fixpoint fsCalls (t : list Event) : list Event :=
  match t with
  | [] => []
  | ReadDir p :: t' => ReadDir p :: fsCalls t'
  | RemoveAll p :: t' => RemoveAll p :: fsCalls t'
  | _ :: t' => fsCalls t'
  end.

(** ** Paths against the tree *)

Definition is_dir (o : option node) : bool :=
  match o with
  | Some (Dir _ _) => true
  | _ => false
  end.

(** [os.Getwd]: fails once the working directory has been removed. *)
Definition os_Getwd (w : World) : result string :=
  if is_dir (lookup (cwd w) (fs w)) then Ok ("/" ++ join_sep (cwd w))%string
  else Err (ENOENT "getwd").

(** [filepath.Abs] on Unix. *)
Definition filepath_Abs (path : string) (w : World) : result string :=
  if filepath_IsAbs path then Ok (filepath_Clean path)
  else match os_Getwd w with
       | Ok wd => Ok (filepath_Join [wd; path])
       | Err e => Err e
       end.

(** The kernel's walk along the elements of a path, element by element,
    from the position [st] (last element first).  Every step is taken
    from a directory that exists; [".."] goes to the parent, the root
    being its own parent. *)
Fixpoint stat_walk (root : node) (st : list string) (es : list string)
  : option (list string) :=
  match es with
  | [] => Some st
  | e :: es' =>
      if is_dir (lookup (rev st) root) then
        if (e =? "") || (e =? ".") then stat_walk root st es'
        else if e =? ".." then stat_walk root (tl st) es'
        else match lookup (rev (e :: st)) root with
             | Some _ => stat_walk root (e :: st) es'
             | None => None
             end
      else None
  end.

(** Where the walk of a path string starts.  In this model a working
    directory that has been removed leads nowhere, by [".."] either. *)
Definition walk_start (w : World) (path : string) : list string :=
  if filepath_IsAbs path then [] else rev (cwd w).

(** [os.Stat]: the object the path leads to.  The program only asks
    whether there is an error. *)
Definition os_Stat (path : string) (w : World) : result node :=
  if path =? "" then Err (ENOENT path)
  else match stat_walk (fs w) (walk_start w path) (elements path) with
       | Some st =>
           match lookup (rev st) (fs w) with
           | Some n => Ok n
           | None => Err (ENOENT path)
           end
       | None => Err (ENOENT path)
       end.

(** Whether the walk is stopped by a regular file standing where a
    directory is needed (ENOTDIR), rather than by something missing
    (ENOENT). *)
Fixpoint stopped_by_file (root : node) (st : list string) (es : list string)
  : bool :=
  match es with
  | [] => false
  | e :: es' =>
      match lookup (rev st) root with
      | Some (Dir _ _) =>
          if (e =? "") || (e =? ".") then stopped_by_file root st es'
          else if e =? ".." then stopped_by_file root (tl st) es'
          else match lookup (rev (e :: st)) root with
               | Some _ => stopped_by_file root (e :: st) es'
               | None => false
               end
      | Some (File _) => true
      | None => false
      end
  end.

(** [ioutil.ReadDir]: the names in the directory the path leads to,
    sorted.  The path is opened the way [os.Stat] finds it. *)
Definition ioutil_ReadDir (path : string) (w : World) : World * result (list string) :=
  let w := emit (ReadDir path) w in
  match os_Stat path w with
  | Ok (Dir _ es) => (w, Ok (sort_names (map fst es)))
  | Ok (File _) => (w, Err (ENOTDIR path))
  | Err e => (w, Err e)
  end.

(** [os.RemoveAll]: a path that leads to nothing, because its last
    element or a directory on the way is missing, is no error; a path
    that leads through a regular file is one.  Otherwise everything
    that can be unlinked is, and an error is returned when something is
    left.  The root directory itself always stays.  (The program only
    passes the cleaned join of a directory and a file name, a path that
    ends in that name: what Go does with a path that ends in a
    separator, in ["."] or in [".."] is not represented.) *)
Definition os_RemoveAll (path : string) (w : World) : World * option error :=
  let w := emit (RemoveAll path) w in
  if path =? "" then (w, None)
  else
    match stat_walk (fs w) (walk_start w path) (elements path) with
    | None =>
        if stopped_by_file (fs w) (walk_start w path) (elements path)
        then (w, Some (ENOTDIR path))
        else (w, None)
    | Some st =>
        let p := rev st in
        match lookup p (fs w) with
        | None => (w, None)
        | Some target =>
            let fs' := match alter purge p (fs w) with
                       | Some r => r
                       | None => Dir false []
                       end in
            match p, purge target with
            | _ :: _, None => (set_fs fs' w, None)
            | _, _ => (set_fs fs' w, Some (EBUSY path))
            end
        end
    end.

(** A new, empty directory [e] in the directory at [p]. *)
Definition add_dir (p : list string) (e : string) (root : node) : node :=
  match alter (fun n => match n with
                        | Dir b es => Some (Dir b (es ++ [(e, Dir false [])]))
                        | File _ => Some n
                        end) p root with
  | Some r => r
  | None => root
  end.

(** [os.MkdirAll] along the elements of a path: a directory on the way
    that is missing is created, parents first; a regular file on the
    way, or at the end, is an error.  What was created before an error
    stays. *)
Fixpoint mkdir_walk (root : node) (st : list string) (es : list string)
  : node * option (string -> error) :=
  match es with
  | [] => (root, None)
  | e :: es' =>
      match lookup (rev st) root with
      | Some (Dir _ _) =>
          if (e =? "") || (e =? ".") then mkdir_walk root st es'
          else if e =? ".." then mkdir_walk root (tl st) es'
          else match lookup (rev (e :: st)) root with
               | Some (Dir _ _) => mkdir_walk root (e :: st) es'
               | Some (File _) => (root, Some ENOTDIR)
               | None => mkdir_walk (add_dir (rev st) e root) (e :: st) es'
               end
      | Some (File _) => (root, Some ENOTDIR)
      | None => (root, Some ENOENT)
      end
  end.

Definition os_MkdirAll (path : string) (w : World) : World * option error :=
  if path =? "" then (w, Some (ENOENT path))
  else match mkdir_walk (fs w) (walk_start w path) (elements path) with
       | (root, None) => (set_fs root w, None)
       | (root, Some errno) => (set_fs root w, Some (errno path))
       end.

(** [context.WithTimeout(context.Background(), d)]. *)
Definition context_WithTimeout (d : Z) (w : World) : Context :=
  mkContext (now w + d)%Z.

Definition exec_CommandContext (ctx : Context) (name : string) (arg : list string) : Cmd :=
  mkCmd ctx (name :: arg).

(** [Run] of an [exec.Cmd] with captured output: the error, stdout,
    stderr.  A program that was not found is reported first; a command
    whose context is already done is not started; a child still running
    at the deadline is killed then. *)
Definition cmd_Run (cmd : Cmd) (w : World) : World * (option error * string * string) :=
  let d := deadline (Ctx cmd) in
  match spawn w (Args cmd) with
  | NotFound => (w, (Some (ErrNotFound (hd "" (Args cmd))), "", ""))
  | StartFailed e =>
      if (d <=? now w)%Z then (w, (Some DeadlineExceeded, "", ""))
      else (w, (Some e, "", ""))
  | Exited code out errout elapsed =>
      if (d <=? now w)%Z then (w, (Some DeadlineExceeded, "", ""))
      else
        let w1 := emit (Spawn (now w) (Args cmd)) w in
        let finish := (now w + Z.max 0 elapsed)%Z in
        if (finish <? d)%Z then
          (set_now finish w1,
           (if (code =? 0)%Z then None else Some (ExitError code), out, errout))
        else (set_now d w1, (Some Killed, out, errout))
  end.

(* ================================================================= *)
(** * Go runtime: encoding/json into [indexRequest], net/http *)

(** A JSON value as the decoder's scanner delivers it; a number keeps
    its literal text. *)
#[warnings="-register-all"] Inductive JSON : Type :=
| JNull
| JBool (b : bool)
| JNumber (literal : string)
| JString (s : string)
| JArray (items : list JSON)
| JObject (members : list (string * JSON)).

(** A request body: the first JSON value in it, or the error the scanner
    stops with (an empty body, a syntax error). *)
Inductive Body : Type :=
| Malformed (e : error)
| Value (v : JSON).

Record indexRequest : Type := mkIndexRequest {
  CloneURL : string;
  RepoID : N  (* uint32 *)
}.

(** The struct fields the decoder knows. *)
Inductive Field : Type := FCloneURL | FRepoID.

Definition field_name (f : Field) : string :=
  match f with
  | FCloneURL => "CloneURL"
  | FRepoID => "RepoID"
  end.

(** [b & 0xDF]. *)
Definition caseMask (c : ascii) : ascii :=
  match c with
  | Ascii b0 b1 b2 b3 b4 _ b6 b7 => Ascii b0 b1 b2 b3 b4 false b6 b7
  end.

(** [simpleLetterEqualFold]: the case-insensitive comparison the decoder
    falls back to for a field name made of letters other than k and s. *)
Fixpoint simpleLetterEqualFold (s t : string) : bool :=
  match s, t with
  | EmptyString, EmptyString => true
  | String a s', String b t' =>
      Ascii.eqb (caseMask a) (caseMask b) && simpleLetterEqualFold s' t'
  | _, _ => false
  end.

(** The field an object key selects: an exact match first, then the
    first field that matches without regard to case. *)
Definition find_field (key : string) : option Field :=
  if key =? "CloneURL" then Some FCloneURL
  else if key =? "RepoID" then Some FRepoID
  else if simpleLetterEqualFold "CloneURL" key then Some FCloneURL
  else if simpleLetterEqualFold "RepoID" key then Some FRepoID
  else None.

Definition digit_of (c : ascii) : option N :=
  let n := N_of_ascii c in
  if ((48 <=? n) && (n <=? 57))%N then Some (n - 48)%N else None.

Fixpoint parse_digits (s : string) (acc : N) : option N :=
  match s with
  | EmptyString => Some acc
  | String c s' =>
      match digit_of c with
      | Some d => parse_digits s' (10 * acc + d)%N
      | None => None
      end
  end.

(** [strconv.ParseUint(s, 10, 64)] followed by the decoder's overflow
    check for a [uint32] field. *)
Definition strconv_ParseUint32 (s : string) : option N :=
  if s =? "" then None
  else match parse_digits s 0 with
       | Some n => if (n <? 2 ^ 32)%N then Some n else None
       | None => None
       end.

(** Storing one member value into a field.  [null] leaves the field as it
    is; a value of the wrong kind is an error. *)
Definition store (f : Field) (v : JSON) (req : indexRequest) : result indexRequest :=
  match f, v with
  | _, JNull => Ok req
  | FCloneURL, JString s => Ok (mkIndexRequest s (RepoID req))
  | FRepoID, JNumber lit =>
      match strconv_ParseUint32 lit with
      | Some n => Ok (mkIndexRequest (CloneURL req) n)
      | None => Err (UnmarshalTypeError (field_name f))
      end
  | _, _ => Err (UnmarshalTypeError (field_name f))
  end.

(** The members of an object in order, under [DisallowUnknownFields]. *)
Fixpoint decode_members (ms : list (string * JSON)) (req : indexRequest)
  : result indexRequest :=
  match ms with
  | [] => Ok req
  | (key, v) :: rest =>
      match find_field key with
      | None => Err (UnknownField key)
      | Some f =>
          match store f v req with
          | Ok req' => decode_members rest req'
          | Err e => Err e
          end
      end
  end.

(** [dec.DisallowUnknownFields(); dec.Decode(&req)] for a struct
    destination.  [null] decodes into any struct without touching it. *)
Definition json_Decode (body : Body) (req : indexRequest) : result indexRequest :=
  match body with
  | Malformed e => Err e
  | Value JNull => Ok req
  | Value (JObject ms) => decode_members ms req
  | Value _ => Err (UnmarshalTypeError "indexRequest")
  end.

Record Request : Type := mkRequest {
  Method : string;
  URLPath : string;
  RequestBody : Body
}.

(** [http.ResponseWriter]: the status code once written, and the body. *)
Record ResponseWriter : Type := mkResponseWriter {
  wroteHeader : option Z;
  written : string
}.

Definition newResponseWriter : ResponseWriter := mkResponseWriter None "".

Definition StatusOK : Z := 200.
Definition StatusBadRequest : Z := 400.
Definition StatusNotFound : Z := 404.
Definition StatusInternalServerError : Z := 500.

Definition LF : string := String "010"%char EmptyString.

(** [http.Error]: writes the header, then the message as one line. *)
Definition http_Error (rw : ResponseWriter) (msg : string) (code : Z) : ResponseWriter :=
  mkResponseWriter
    (match wroteHeader rw with
     | Some c => Some c
     | None => Some code
     end)
    (written rw ++ msg ++ LF)%string.

(** The status the client sees: 200 when the handler wrote none. *)
Definition statusCode (rw : ResponseWriter) : Z :=
  match wroteHeader rw with
  | Some c => c
  | None => StatusOK
  end.

(* ================================================================= *)
(** * The program *)

Record Options : Type := mkOptions {
  indexTimeout : Z;  (* time.Duration *)
  dataDir : string;
  indexDir : string;
  repoDir : string;
  listen : string
}.

Definition loggedRun (cmd : Cmd) (w : World) : World * (string * string) :=
  let w := log_Printf (LogRun (Args cmd)) w in
  let '(w, (err, out, errout)) := cmd_Run cmd w in
  let w := match err with
           | Some e => log_Printf (LogCommandFailed (Args cmd) e out errout) w
           | None => w
           end in
  (w, (out, errout)).

(** [executeCmd] returns nothing: only the world changes.  Each call is
    marked in the trace with the vector a stub would record. *)
Definition executeCmd (ctx : Context) (name : string) (arg : list string)
    (w : World) : World :=
  let w := emit (ExecuteCmd ctx (name :: arg)) w in
  let cmd := exec_CommandContext ctx name arg in
  fst (loggedRun cmd w).

(** [fmt.Sprintf("%d.git", id)]. *)
Definition fmt_Sprintf_d_git (id : N) : string :=
  (strconv_FormatUint id ++ ".git")%string.

Definition indexRepository (opts : Options) (req : indexRequest)
    (rw : ResponseWriter) (w : World) : World * ResponseWriter :=
  let ctx := context_WithTimeout (indexTimeout opts) w in
  let args := [] in
  let args := args ++ ["-dest"; repoDir opts] in
  let args := args ++ ["-name"; strconv_FormatUint (RepoID req)] in
  let args := args ++ ["-repoid"; strconv_FormatUint (RepoID req)] in
  let args := args ++ [CloneURL req] in
  let w := executeCmd ctx "zoekt-git-clone" args w in
  match filepath_Abs (filepath_Join [repoDir opts; fmt_Sprintf_d_git (RepoID req)]) w with
  | Err err =>
      let w := log_Printf (LogRepoPathError err) w in
      (w, http_Error rw "JSON parser error" StatusBadRequest)
  | Ok gitRepoPath =>
      let args := ["-C"; gitRepoPath; "fetch"] in
      let w := executeCmd ctx "git" args w in
      let args := ["-index"; indexDir opts; gitRepoPath] in
      let w := executeCmd ctx "zoekt-git-index" args w in
      (w, rw)
  end.

Definition serveIndex (opts : Options) (rw : ResponseWriter) (r : Request)
    (w : World) : World * ResponseWriter :=
  match json_Decode (RequestBody r) (mkIndexRequest "" 0) with
  | Err err =>
      let w := log_Printf (LogDecodeError err) w in
      (w, http_Error rw "JSON parser error" StatusBadRequest)
  | Ok req => indexRepository opts req rw w
  end.

(** The loop of [emptyDirectory] over the listed files. *)
Fixpoint removeEach (dir : string) (files : list string) (w : World)
  : World * option error :=
  match files with
  | [] => (w, None)
  | file :: rest =>
      let filePath := filepath_Join [dir; file] in
      match os_RemoveAll filePath w with
      | (w, Some err) => (w, Some err)
      | (w, None) => removeEach dir rest w
      end
  end.

Definition emptyDirectory (dir : string) (w : World) : World * option error :=
  match ioutil_ReadDir dir w with
  | (w, Err err) => (w, Some err)
  | (w, Ok files) => removeEach dir files w
  end.

Definition serveTruncate (opts : Options) (rw : ResponseWriter) (req : Request)
    (w : World) : World * ResponseWriter :=
  match emptyDirectory (repoDir opts) w with
  | (w, Some err) =>
      let w := log_Printf (LogEmptyRepoDir (repoDir opts) err) w in
      (w, http_Error rw "Failed to delete repoDir" StatusInternalServerError)
  | (w, None) =>
      match emptyDirectory (indexDir opts) w with
      | (w, Some err) =>
          let w := log_Printf (LogEmptyIndexDir (repoDir opts) err) w in
          (w, http_Error rw "Failed to delete indexDir" StatusInternalServerError)
      | (w, None) => (w, rw)
      end
  end.

(** The two patterns [startIndexingApi] registers on the default mux;
    each matches its path exactly, for any method. *)
Definition ServeHTTP (opts : Options) (r : Request) (w : World)
  : World * ResponseWriter :=
  if URLPath r =? "/index" then serveIndex opts newResponseWriter r w
  else if URLPath r =? "/truncate" then serveTruncate opts newResponseWriter r w
  else (w, http_Error newResponseWriter "404 page not found" StatusNotFound).

(** [startIndexingApi] over the requests that arrive, served one after
    the other. *)
Fixpoint startIndexingApi (opts : Options) (rs : list Request) (w : World)
  : World * list ResponseWriter :=
  match rs with
  | [] => (w, [])
  | r :: rs' =>
      let '(w, rw) := ServeHTTP opts r w in
      let '(w, rws) := startIndexingApi opts rs' w in
      (w, rw :: rws)
  end.

(** [parseOptions] on the flag values; [None] is [log.Fatal]. *)
Definition parseOptions (data_dir index_dir : string) (index_timeout : Z)
    (listen_addr : string) : option Options :=
  if data_dir =? "" then None
  else
    let index_dir :=
      if index_dir =? "" then filepath_Join [data_dir; "index"] else index_dir in
    Some (mkOptions index_timeout data_dir index_dir
            (filepath_Join [data_dir; "repos"]) listen_addr).

(* ================================================================= *)
(** * The program: startup *)

(** The loop of [createMissingDirectories].  [Some (s, err)] is
    [log.Fatalf("MkdirAll %s: %v", s, err)], which ends the process. *)
Fixpoint ensureEach (dirs : list string) (w : World)
  : World * option (string * error) :=
  match dirs with
  | [] => (w, None)
  | s :: rest =>
      match os_Stat s w with
      | Ok _ => ensureEach rest w
      | Err _ =>
          match os_MkdirAll s w with
          | (w, Some err) => (w, Some (s, err))
          | (w, None) => ensureEach rest w
          end
      end
  end.

Definition createMissingDirectories (o : Options) (w : World)
  : World * option (string * error) :=
  ensureEach [dataDir o; indexDir o; repoDir o] w.

(* ================================================================= *)
(** * Notions used in the statements *)

(** ** Commands *)

(** The error of running a command in a world, and its captured output. *)
Definition run_outcome (cmd : Cmd) (w : World) : option error * string * string :=
  snd (cmd_Run cmd w).

Definition failure_lines (argv : list string) (o : option error * string * string)
  : list LogLine :=
  match o with
  | (Some e, out, errout) => [LogCommandFailed argv e out errout]
  | (None, _, _) => []
  end.

(** The three argument vectors of the pipeline. *)
Definition clone_argv (opts : Options) (req : indexRequest) : list string :=
  ["zoekt-git-clone"; "-dest"; repoDir opts;
   "-name"; strconv_FormatUint (RepoID req);
   "-repoid"; strconv_FormatUint (RepoID req); CloneURL req].

Definition fetch_argv (gitRepoPath : string) : list string :=
  ["git"; "-C"; gitRepoPath; "fetch"].

Definition index_argv (opts : Options) (gitRepoPath : string) : list string :=
  ["zoekt-git-index"; "-index"; indexDir opts; gitRepoPath].

(** The path [indexRepository] asks [filepath.Abs] to resolve. *)
Definition repo_path (opts : Options) (req : indexRequest) : string :=
  filepath_Join [repoDir opts; fmt_Sprintf_d_git (RepoID req)].

(** The same world with other programs installed. *)
Definition with_programs (run : list string -> ProcResult) (w : World) : World :=
  mkWorld (fs w) (cwd w) (now w) run (trace w).

(** ** File names *)

Fixpoint no_slash (s : string) : bool :=
  match s with
  | EmptyString => true
  | String c s' => negb (Ascii.eqb c "/") && no_slash s'
  end.

(** What a directory entry can be called: not empty, not ["."] or
    [".."], no separator inside. *)
Definition is_name (e : string) : bool :=
  negb (e =? "") && negb (e =? ".") && negb (e =? "..") && no_slash e.

(** What the cleaning loop keeps on its output. *)
Definition kept (rooted : bool) (e : string) : Prop :=
  e <> "" /\ e <> "." /\ no_slash e = true /\ (rooted = true -> e <> "..").

(** ** Directories against the tree *)

(** The tree with the object at [p] replaced by [new]. *)
Definition put (p : list string) (new : node) (root : node) : node :=
  match alter (fun _ => Some new) p root with
  | Some r => r
  | None => root
  end.

(** One step along a path, from the position [st] (last element
    first): an empty element and ["."] stay, [".."] goes to the parent,
    the root being its own parent, a name goes down. *)
Definition walk_step (st : list string) (e : string) : list string :=
  if (e =? "") || (e =? ".") then st
  else if e =? ".." then tl st
  else e :: st.

(** Where a path string leads, element by element, whether or not
    anything is there: from the root when the path is absolute, from the
    working directory otherwise.  The empty path leads nowhere. *)
Definition resolve (w : World) (path : string) : option (list string) :=
  if path =? "" then None
  else Some (rev (fold_left walk_step (elements path) (walk_start w path))).

(** The object at the place a path string leads to, if there is one. *)
Definition node_at (w : World) (path : string) : option node :=
  match resolve w path with
  | Some p => lookup p (fs w)
  | None => None
  end.


(** Every entry of the directory [path] names has a proper file name,
    and no name twice. *)
Definition well_named (w : World) (path : string) : Prop :=
  forall b es, node_at w path = Some (Dir b es) ->
    Forall (fun f => is_name f = true) (map fst es) /\ NoDup (map fst es).

(** The directory [a] lies strictly inside the directory [b]. *)
Definition inside (w : World) (a b : string) : Prop :=
  exists pa pb q,
    resolve w a = Some pa /\ resolve w b = Some pb /\ q <> [] /\ pa = pb ++ q.

(** The removals [emptyDirectory] issues for the files [fs_names] of [dir]. *)
Definition removals (dir : string) (fs_names : list string) : list Event :=
  map (fun f => RemoveAll (filepath_Join [dir; f])) fs_names.


(** The world after [os.RemoveAll] has been called on the joined path of
    each of [names], one call after the other. *)
Fixpoint after_removals (dir : string) (names : list string) (w : World) : World :=
  match names with
  | [] => w
  | f :: rest => after_removals dir rest (fst (os_RemoveAll (filepath_Join [dir; f]) w))
  end.

(** ** Trees that grow *)

(** Same kind of object, same flag. *)
Definition same_kind (n n' : node) : Prop :=
  match n, n' with
  | File b, File b' => b = b'
  | Dir b _, Dir b' _ => b = b'
  | _, _ => False
  end.

(** Everything [root] holds is still in [root'], a regular file as it
    was, a directory possibly with more in it. *)
Definition extends (root root' : node) : Prop :=
  forall q n, lookup q root = Some n ->
    exists n', lookup q root' = Some n'
               /\ same_kind n n'
               /\ (forall b, n = File b -> n' = n).

(** Two paths that part ways: after a common stretch, one goes on with
    [a] and the other with a different [a']. *)
Definition apart (p q : list string) : Prop :=
  exists c a a' p' q', a <> a' /\ p = c ++ a :: p' /\ q = c ++ a' :: q'.

(** File names in listing order. *)
Fixpoint sorted_names (l : list string) : Prop :=
  match l with
  | [] => True
  | x :: l' =>
      match l' with
      | [] => True
      | y :: _ => String.leb x y = true
      end /\ sorted_names l'
  end.

(* ================================================================= *)
(** * Example worlds *)

Definition no_programs (argv : list string) : ProcResult := NotFound.

Definition all_succeed (argv : list string) : ProcResult :=
  Exited 0 "" "" 1000.

Definition test_opts : Options :=
  mkOptions 100000000 "" "/index_dir" "/repo_dir" "".

Definition test_req : indexRequest :=
  mkIndexRequest "https://example.com/repository.git" 100.

Definition bare_world (run : list string -> ProcResult) : World :=
  mkWorld (Dir false []) [] 0 run [].

(** A server started in [/srv/zoekt] with [-data_dir data], after its
    working directory has been removed. *)
Definition relative_opts : Options :=
  mkOptions 3600000000000 "data" "data/index" "data/repos" ":6060".

Definition lost_cwd_world : World :=
  mkWorld (Dir false [("srv", Dir false [])]) ["srv"; "zoekt"] 0 all_succeed [].

(** A data directory holding a repo cache with files [a], [b] and a
    subdirectory [c/d], and an index with one shard. *)
Definition sample_tree : node :=
  Dir false
    [("data", Dir false
        [("index", Dir false [("shard0", File false)]);
         ("repos", Dir false
            [("a", File false); ("b", File false);
             ("c", Dir false [("d", File false)])])]);
     ("srv", Dir false [])].

Definition sample_world : World := mkWorld sample_tree ["srv"] 0 all_succeed [].

(** The same, with [b] a file that cannot be unlinked. *)
Definition pinned_tree : node :=
  Dir false
    [("data", Dir false
        [("index", Dir false [("shard0", File false)]);
         ("repos", Dir false
            [("a", File false); ("b", File true);
             ("c", Dir false [("d", File false)])])]);
     ("srv", Dir false [])].

Definition pinned_world : World := mkWorld pinned_tree ["srv"] 0 all_succeed [].

(** [-data_dir /data]: the default layout. *)
Definition default_opts : Options :=
  mkOptions 3600000000000 "/data" "/data/index" "/data/repos" ":6060".

(** [-data_dir /data -index_dir /data]: the repo cache lies inside the
    index directory. *)
Definition nested_opts : Options :=
  mkOptions 3600000000000 "/data" "/data" "/data/repos" ":6060".




Definition post (path : string) (body : Body) : Request := mkRequest "POST" path body.

(** The body [{"CloneURL": "https://example.com/repository.git", "RepoID": 100}]. *)
Definition test_body : Body :=
  Value (JObject [("CloneURL", JString "https://example.com/repository.git");
                  ("RepoID", JNumber "100")]).

(* ================================================================= *)
(** * Facts about traces and command execution *)

Lemma cmdHistory_app (t1 t2 : list Event) :
  cmdHistory (t1 ++ t2) = cmdHistory t1 ++ cmdHistory t2.
Proof.
  induction t1 as [|e t1 IH]; simpl; [reflexivity|].
  destruct e; simpl; rewrite IH; reflexivity.
Qed.

Lemma contexts_app (t1 t2 : list Event) :
  contexts (t1 ++ t2) = contexts t1 ++ contexts t2.
Proof.
  induction t1 as [|e t1 IH]; simpl; [reflexivity|].
  destruct e; simpl; rewrite IH; reflexivity.
Qed.

Lemma spawned_app (t1 t2 : list Event) :
  spawned (t1 ++ t2) = spawned t1 ++ spawned t2.
Proof.
  induction t1 as [|e t1 IH]; simpl; [reflexivity|].
  destruct e; simpl; rewrite IH; reflexivity.
Qed.

Lemma logged_app (t1 t2 : list Event) :
  logged (t1 ++ t2) = logged t1 ++ logged t2.
Proof.
  induction t1 as [|e t1 IH]; simpl; [reflexivity|].
  destruct e; simpl; rewrite IH; reflexivity.
Qed.

Lemma fsCalls_app (t1 t2 : list Event) :
  fsCalls (t1 ++ t2) = fsCalls t1 ++ fsCalls t2.
Proof.
  induction t1 as [|e t1 IH]; simpl; [reflexivity|].
  destruct e; simpl; rewrite IH; reflexivity.
Qed.

Create Rewrite HintDb views.
#[local] Hint Rewrite cmdHistory_app contexts_app spawned_app logged_app
  fsCalls_app app_nil_r : views.
#[local] Hint Rewrite <- app_assoc : views.

(** Unfolds one command execution into its cases. *)
Ltac exec_cases :=
  unfold executeCmd, loggedRun, run_outcome, cmd_Run, exec_CommandContext,
    log_Printf, emit, set_now;
  simpl;
  repeat match goal with
         | |- context [match spawn ?w ?a with _ => _ end] =>
             destruct (spawn w a) eqn:?; simpl
         | |- context [if ?b then _ else _] => destruct b eqn:?; simpl
         end;
  autorewrite with views; simpl.

Lemma executeCmd_fs ctx name arg w :
  fs (executeCmd ctx name arg w) = fs w.
Proof. exec_cases; reflexivity. Qed.

Lemma executeCmd_cwd ctx name arg w :
  cwd (executeCmd ctx name arg w) = cwd w.
Proof. exec_cases; reflexivity. Qed.

Lemma executeCmd_cmdHistory ctx name arg w :
  cmdHistory (trace (executeCmd ctx name arg w))
  = cmdHistory (trace w) ++ [name :: arg].
Proof. exec_cases; reflexivity. Qed.

Lemma executeCmd_contexts ctx name arg w :
  contexts (trace (executeCmd ctx name arg w)) = contexts (trace w) ++ [ctx].
Proof. exec_cases; reflexivity. Qed.

Lemma executeCmd_logged ctx name arg w :
  logged (trace (executeCmd ctx name arg w))
  = logged (trace w)
    ++ LogRun (name :: arg)
    :: failure_lines (name :: arg) (run_outcome (exec_CommandContext ctx name arg) w).
Proof. exec_cases; reflexivity. Qed.

(** A command starts at most one child, and only before the deadline of
    its context. *)
Lemma executeCmd_spawned ctx name arg w :
  spawned (trace (executeCmd ctx name arg w))
  = spawned (trace w)
    ++ (if (deadline ctx <=? now w)%Z then []
        else match spawn w (name :: arg) with
             | Exited _ _ _ _ => [(now w, name :: arg)]
             | _ => []
             end).
Proof. exec_cases; try reflexivity; try lia. Qed.

Lemma filepath_Abs_ext path w w' :
  fs w' = fs w -> cwd w' = cwd w -> filepath_Abs path w' = filepath_Abs path w.
Proof.
  intros Hfs Hcwd. unfold filepath_Abs, os_Getwd. rewrite Hfs, Hcwd. reflexivity.
Qed.

Lemma filepath_Abs_executeCmd path ctx name arg w :
  filepath_Abs path (executeCmd ctx name arg w) = filepath_Abs path w.
Proof.
  apply filepath_Abs_ext; [apply executeCmd_fs | apply executeCmd_cwd].
Qed.

Lemma filepath_Abs_absolute path w :
  filepath_IsAbs path = true -> filepath_Abs path w = Ok (filepath_Clean path).
Proof. intros H. unfold filepath_Abs. rewrite H. reflexivity. Qed.

(* ================================================================= *)
(** * The pipeline driver *)

(** [indexRepository] as its two outcomes.  Running a command changes
    neither the tree nor the working directory, so the path resolves
    after the clone stage exactly as it would have at entry. *)
Lemma indexRepository_unfold opts req rw w :
  indexRepository opts req rw w =
  let ctx := context_WithTimeout (indexTimeout opts) w in
  let w1 := executeCmd ctx "zoekt-git-clone" (tl (clone_argv opts req)) w in
  match filepath_Abs (repo_path opts req) w with
  | Err err =>
      (log_Printf (LogRepoPathError err) w1,
       http_Error rw "JSON parser error" StatusBadRequest)
  | Ok p =>
      (executeCmd ctx "zoekt-git-index" (tl (index_argv opts p))
         (executeCmd ctx "git" (tl (fetch_argv p)) w1), rw)
  end.
Proof.
  unfold indexRepository, repo_path. cbv zeta.
  rewrite filepath_Abs_executeCmd.
  destruct (filepath_Abs _ w); reflexivity.
Qed.

Lemma indexRepository_history_ok opts req rw w p :
  filepath_Abs (repo_path opts req) w = Ok p ->
  cmdHistory (trace (fst (indexRepository opts req rw w)))
  = cmdHistory (trace w) ++ [clone_argv opts req; fetch_argv p; index_argv opts p].
Proof.
  intros H. rewrite indexRepository_unfold. cbv zeta. rewrite H. simpl fst.
  rewrite !executeCmd_cmdHistory. rewrite <- !app_assoc. reflexivity.
Qed.

Lemma indexRepository_history_err opts req rw w e :
  filepath_Abs (repo_path opts req) w = Err e ->
  cmdHistory (trace (fst (indexRepository opts req rw w)))
  = cmdHistory (trace w) ++ [clone_argv opts req].
Proof.
  intros H. rewrite indexRepository_unfold. cbv zeta. rewrite H. simpl fst.
  unfold log_Printf, emit. simpl trace. rewrite cmdHistory_app.
  rewrite executeCmd_cmdHistory. simpl. rewrite app_nil_r. reflexivity.
Qed.

Lemma indexRepository_response opts req rw w :
  snd (indexRepository opts req rw w)
  = match filepath_Abs (repo_path opts req) w with
    | Ok _ => rw
    | Err _ => http_Error rw "JSON parser error" StatusBadRequest
    end.
Proof.
  rewrite indexRepository_unfold. cbv zeta.
  destruct (filepath_Abs _ w); reflexivity.
Qed.

(* ================================================================= *)
(** * Facts about paths *)

Lemma elements_nonempty s : elements s <> [].
Proof.
  destruct s as [|c s]; simpl; [discriminate|].
  destruct (Ascii.eqb c "/"); [discriminate|].
  destruct (elements s); discriminate.
Qed.

Lemma elements_app_sep a b :
  elements (a ++ "/" ++ b)%string = elements a ++ elements b.
Proof.
  induction a as [|c a IH]; simpl in *; [reflexivity|].
  destruct (Ascii.eqb c "/"); simpl; [rewrite IH; reflexivity|].
  rewrite IH. pose proof (elements_nonempty a) as Hne.
  destruct (elements a); [contradiction|reflexivity].
Qed.

Lemma elements_no_slash e : no_slash e = true -> elements e = [e].
Proof.
  induction e as [|c e IH]; simpl; [reflexivity|].
  intros H. apply andb_true_iff in H as [Hc He].
  apply negb_true_iff in Hc. rewrite Hc, (IH He). reflexivity.
Qed.

Lemma elements_all_no_slash s : Forall (fun e => no_slash e = true) (elements s).
Proof.
  induction s as [|c s IH]; simpl; [repeat constructor|].
  destruct (Ascii.eqb c "/") eqn:Hc; [constructor; [reflexivity|assumption]|].
  destruct (elements s) as [|x xs]; [repeat constructor; simpl; rewrite Hc; reflexivity|].
  inversion IH; subst. constructor; [simpl; rewrite Hc; assumption|assumption].
Qed.

Lemma elements_join_sep es :
  es <> [] -> Forall (fun e => no_slash e = true) es -> elements (join_sep es) = es.
Proof.
  induction es as [|x es IH]; [congruence|].
  intros _ H. inversion H as [|? ? Hx Hes]; subst.
  destruct es as [|y es]; [apply elements_no_slash; assumption|].
  change (join_sep (x :: y :: es)) with (x ++ "/" ++ join_sep (y :: es))%string.
  rewrite elements_app_sep, (elements_no_slash x Hx), IH by (congruence || assumption).
  reflexivity.
Qed.

Lemma is_name_spec e :
  is_name e = true ->
  e <> "" /\ e <> "." /\ e <> ".." /\ no_slash e = true.
Proof.
  unfold is_name. rewrite !andb_true_iff, !negb_true_iff, !String.eqb_neq. tauto.
Qed.

Lemma clean_step_name rooted out e :
  e <> "" -> e <> "." -> e <> ".." -> clean_step rooted out e = e :: out.
Proof.
  intros H1 H2 H3. unfold clean_step.
  apply String.eqb_neq in H1, H2, H3. rewrite H1, H2, H3. reflexivity.
Qed.

Lemma clean_elements_app rooted es1 es2 out :
  clean_elements rooted (es1 ++ es2) out
  = clean_elements rooted es2 (clean_elements rooted es1 out).
Proof. apply fold_left_app. Qed.

Lemma clean_elements_names rooted es out :
  Forall (fun e => is_name e = true) es ->
  clean_elements rooted es out = rev es ++ out.
Proof.
  revert out. induction es as [|e es IH]; intros out H; [reflexivity|].
  inversion H as [|? ? He Hes]; subst.
  apply is_name_spec in He as (H1 & H2 & H3 & _).
  unfold clean_elements in *. simpl. rewrite clean_step_name by assumption.
  rewrite IH by assumption. rewrite <- app_assoc. reflexivity.
Qed.

Lemma clean_step_kept rooted out e :
  no_slash e = true ->
  Forall (kept rooted) out -> Forall (kept rooted) (clean_step rooted out e).
Proof.
  intros He Hout. unfold clean_step.
  destruct (String.eqb_spec e ""); simpl; [assumption|].
  destruct (String.eqb_spec e "."); simpl; [assumption|].
  destruct (String.eqb_spec e "..") as [->|Hdd].
  - destruct out as [|top rest].
    + destruct rooted; [constructor|].
      constructor; [|constructor]. repeat split; congruence.
    + inversion Hout; subst.
      destruct (String.eqb_spec top ".."); [|assumption].
      subst. constructor; assumption.
  - constructor; [|assumption]. repeat split; auto.
Qed.

Lemma clean_elements_kept rooted es out :
  Forall (fun e => no_slash e = true) es ->
  Forall (kept rooted) out -> Forall (kept rooted) (clean_elements rooted es out).
Proof.
  revert out. induction es as [|e es IH]; intros out Hes Hout; [assumption|].
  inversion Hes; subst. unfold clean_elements in *. simpl.
  apply IH; [assumption|]. apply clean_step_kept; assumption.
Qed.

Lemma kept_rooted_is_name e : kept true e -> is_name e = true.
Proof.
  intros (H1 & H2 & H3 & H4). unfold is_name.
  rewrite !andb_true_iff, !negb_true_iff, !String.eqb_neq. auto.
Qed.

(** Walking the output of the unrooted cleaning loop from a directory is
    walking the uncleaned elements from it. *)
Lemma clean_step_walk acc e st :
  Forall (kept false) acc ->
  clean_elements true (rev (clean_step false acc e)) st
  = clean_step true (clean_elements true (rev acc) st) e.
Proof.
  intros Hacc. unfold clean_step at 1.
  destruct (String.eqb_spec e "") as [->|He1]; simpl; [reflexivity|].
  destruct (String.eqb_spec e ".") as [->|He2]; simpl; [reflexivity|].
  destruct (String.eqb_spec e "..") as [->|He3].
  - destruct acc as [|top rest]; [reflexivity|].
    inversion Hacc as [|? ? (T1 & T2 & _ & _) _]; subst.
    destruct (String.eqb_spec top "..") as [->|T3].
    + change (rev (".." :: ".." :: rest)) with (rev (".." :: rest) ++ [".."]).
      rewrite clean_elements_app. reflexivity.
    + simpl rev. rewrite clean_elements_app.
      change (clean_elements true [top] ?x) with (clean_step true x top).
      rewrite (clean_step_name true _ top) by assumption.
      unfold clean_step. simpl. apply String.eqb_neq in T3. rewrite T3. reflexivity.
  - simpl rev. rewrite clean_elements_app. reflexivity.
Qed.

Lemma clean_elements_walk es acc st :
  Forall (fun e => no_slash e = true) es ->
  Forall (kept false) acc ->
  clean_elements true (rev (clean_elements false es acc)) st
  = clean_elements true es (clean_elements true (rev acc) st).
Proof.
  revert acc. induction es as [|e es IH]; intros acc Hes Hacc; [reflexivity|].
  inversion Hes; subst.
  change (clean_elements false (e :: es) acc)
    with (clean_elements false es (clean_step false acc e)).
  rewrite IH by (try apply clean_step_kept; assumption).
  rewrite clean_step_walk by assumption. reflexivity.
Qed.

Lemma IsAbs_cons c s : filepath_IsAbs (String c s) = Ascii.eqb c "/".
Proof.
  unfold filepath_IsAbs. cbn [String.prefix].
  destruct (ascii_dec "/" c) as [<-|Hne].
  - rewrite Ascii.eqb_refl. destruct s; reflexivity.
  - symmetry. apply Ascii.eqb_neq. congruence.
Qed.

Lemma join_sep_head x r :
  x <> "" -> no_slash x = true ->
  join_sep (x :: r) <> "" /\ filepath_IsAbs (join_sep (x :: r)) = false.
Proof.
  intros Hx Hs. destruct x as [|c x]; [congruence|].
  simpl in Hs. apply andb_true_iff in Hs as [Hc _]. apply negb_true_iff in Hc.
  destruct r; simpl; rewrite IsAbs_cons; split; (discriminate || assumption).
Qed.

Lemma Clean_nonempty p : filepath_Clean p <> "".
Proof.
  unfold filepath_Clean.
  destruct (p =? ""); [discriminate|].
  destruct (filepath_IsAbs p) eqn:Habs; [discriminate|].
  pose proof (clean_elements_kept false (elements p) []
                (elements_all_no_slash p) (Forall_nil _)) as K.
  apply Forall_rev in K.
  destruct (rev (clean_elements false (elements p) [])) as [|x r]; [discriminate|].
  inversion K as [|? ? (K1 & _ & K3 & _) _]; subst.
  apply (join_sep_head x r K1 K3).
Qed.

Lemma Clean_IsAbs p : p <> "" -> filepath_IsAbs (filepath_Clean p) = filepath_IsAbs p.
Proof.
  intros Hp. unfold filepath_Clean.
  apply String.eqb_neq in Hp. rewrite Hp.
  destruct (filepath_IsAbs p) eqn:Habs; [cbn [append]; apply IsAbs_cons|].
  pose proof (clean_elements_kept false (elements p) []
                (elements_all_no_slash p) (Forall_nil _)) as K.
  apply Forall_rev in K.
  destruct (rev (clean_elements false (elements p) [])) as [|x r]; [reflexivity|].
  inversion K as [|? ? (K1 & _ & K3 & _) _]; subst.
  apply (join_sep_head x r K1 K3).
Qed.

(** Cleaning a path does not change where it leads. *)
Lemma walk_Clean p st :
  p <> "" -> (filepath_IsAbs p = true -> st = []) ->
  clean_elements true (elements (filepath_Clean p)) st
  = clean_elements true (elements p) st.
Proof.
  intros Hp Hst. unfold filepath_Clean.
  apply String.eqb_neq in Hp. rewrite Hp.
  destruct (filepath_IsAbs p) eqn:Habs.
  - rewrite (Hst eq_refl).
    pose proof (clean_elements_kept true (elements p) []
                  (elements_all_no_slash p) (Forall_nil _)) as K.
    apply Forall_rev in K.
    remember (clean_elements true (elements p) []) as out eqn:Hout.
    assert (Hrev : out = rev (rev out)) by (symmetry; apply rev_involutive).
    destruct (rev out) as [|x r] eqn:Hl; [rewrite Hrev; reflexivity|].
    change (elements ("/" ++ join_sep (x :: r))%string)
      with ("" :: elements (join_sep (x :: r))).
    rewrite elements_join_sep;
      [|discriminate
       |eapply Forall_impl; [|exact K]; intros a (_ & _ & Ha & _); exact Ha].
    change (clean_elements true ("" :: x :: r) []) with (clean_elements true (x :: r) []).
    rewrite clean_elements_names;
      [|eapply Forall_impl; [|exact K]; intros a Ha; apply kept_rooted_is_name, Ha].
    rewrite app_nil_r. symmetry. exact Hrev.
  - pose proof (clean_elements_kept false (elements p) []
                  (elements_all_no_slash p) (Forall_nil _)) as K.
    pose proof (clean_elements_walk (elements p) [] st
                  (elements_all_no_slash p) (Forall_nil _)) as W.
    simpl in W. rewrite <- W. apply Forall_rev in K.
    destruct (rev (clean_elements false (elements p) [])) as [|x r]; [reflexivity|].
    rewrite elements_join_sep;
      [reflexivity|discriminate
      |eapply Forall_impl; [|exact K]; intros a (_ & _ & Ha & _); exact Ha].
Qed.

Lemma walk_step_name st e :
  e <> "" -> e <> "." -> e <> ".." -> walk_step st e = e :: st.
Proof.
  intros H1 H2 H3. unfold walk_step.
  apply String.eqb_neq in H1, H2, H3. rewrite H1, H2, H3. reflexivity.
Qed.

Lemma walk_app es1 es2 st :
  fold_left walk_step (es1 ++ es2) st
  = fold_left walk_step es2 (fold_left walk_step es1 st).
Proof. apply fold_left_app. Qed.


(** From a position that holds no [..], a walk is what the rooted
    cleaning loop computes. *)
Lemma walk_rooted es :
  forall st, Forall (fun e => e <> "..") st ->
             fold_left walk_step es st = clean_elements true es st.
Proof.
  induction es as [|e es IH]; intros st Hst; [reflexivity|].
  change (clean_elements true (e :: es) st)
    with (clean_elements true es (clean_step true st e)).
  simpl.
  assert (H : clean_step true st e = walk_step st e
              /\ Forall (fun e => e <> "..") (walk_step st e)).
  { unfold clean_step, walk_step.
    destruct ((e =? "") || (e =? ".")); [auto|].
    destruct (String.eqb_spec e "..") as [->|Hne].
    - destruct st as [|top rest]; [auto|].
      inversion Hst as [|? ? Htop Hrest]; subst.
      apply String.eqb_neq in Htop. rewrite Htop. auto.
    - split; [reflexivity|]. constructor; assumption. }
  destruct H as [-> H]. apply IH. exact H.
Qed.

(** Walking the output of the unrooted cleaning loop is walking the
    uncleaned elements. *)
Lemma walk_unrooted_step acc e st :
  Forall (kept false) acc ->
  fold_left walk_step (rev (clean_step false acc e)) st
  = walk_step (fold_left walk_step (rev acc) st) e.
Proof.
  intros Hacc. unfold clean_step.
  destruct (String.eqb_spec e "") as [->|He1]; simpl; [reflexivity|].
  destruct (String.eqb_spec e ".") as [->|He2]; simpl; [reflexivity|].
  destruct (String.eqb_spec e "..") as [->|He3].
  - destruct acc as [|top rest]; [reflexivity|].
    inversion Hacc as [|? ? (T1 & T2 & _ & _) _]; subst.
    destruct (String.eqb_spec top "..") as [->|T3].
    + change (rev (".." :: ".." :: rest)) with (rev (".." :: rest) ++ [".."]).
      rewrite walk_app. reflexivity.
    + simpl rev. rewrite walk_app. simpl.
      rewrite (walk_step_name _ top) by assumption. reflexivity.
  - simpl rev. rewrite walk_app. reflexivity.
Qed.

Lemma walk_unrooted es :
  forall acc st,
    Forall (fun e => no_slash e = true) es ->
    Forall (kept false) acc ->
    fold_left walk_step (rev (clean_elements false es acc)) st
    = fold_left walk_step es (fold_left walk_step (rev acc) st).
Proof.
  induction es as [|e es IH]; intros acc st Hes Hacc; [reflexivity|].
  inversion Hes; subst.
  change (clean_elements false (e :: es) acc)
    with (clean_elements false es (clean_step false acc e)).
  rewrite IH by (try apply clean_step_kept; assumption).
  rewrite walk_unrooted_step by assumption. reflexivity.
Qed.

(** Cleaning a path does not change where it leads. *)
Lemma walk_step_Clean p st :
  p <> "" -> (filepath_IsAbs p = true -> st = []) ->
  fold_left walk_step (elements (filepath_Clean p)) st
  = fold_left walk_step (elements p) st.
Proof.
  intros Hp Hst. destruct (filepath_IsAbs p) eqn:Habs.
  - rewrite (Hst eq_refl), !walk_rooted by constructor.
    apply walk_Clean; auto.
  - unfold filepath_Clean.
    pose proof Hp as Hp'. apply String.eqb_neq in Hp'. rewrite Hp', Habs.
    pose proof (clean_elements_kept false (elements p) []
                  (elements_all_no_slash p) (Forall_nil _)) as K.
    pose proof (walk_unrooted (elements p) [] st
                  (elements_all_no_slash p) (Forall_nil _)) as W.
    simpl in W. rewrite <- W. apply Forall_rev in K.
    destruct (rev (clean_elements false (elements p) [])) as [|x r]; [reflexivity|].
    rewrite elements_join_sep;
      [reflexivity|discriminate
      |eapply Forall_impl; [|exact K]; intros a (_ & _ & Ha & _); exact Ha].
Qed.

Lemma walk_start_Clean w p :
  p <> "" -> walk_start w (filepath_Clean p) = walk_start w p.
Proof. intros Hp. unfold walk_start. rewrite (Clean_IsAbs p Hp). reflexivity. Qed.

Lemma walk_start_abs w p : filepath_IsAbs p = true -> walk_start w p = [].
Proof. intros H. unfold walk_start. rewrite H. reflexivity. Qed.

Lemma resolve_Clean w p : p <> "" -> resolve w (filepath_Clean p) = resolve w p.
Proof.
  intros Hp. unfold resolve.
  pose proof (Clean_nonempty p) as Hc. apply String.eqb_neq in Hc. rewrite Hc.
  pose proof Hp as Hp'. apply String.eqb_neq in Hp'. rewrite Hp'.
  rewrite (walk_start_Clean w p Hp).
  rewrite walk_step_Clean by (assumption || apply walk_start_abs). reflexivity.
Qed.

Lemma Clean_idempotent p :
  filepath_IsAbs p = true -> filepath_Clean (filepath_Clean p) = filepath_Clean p.
Proof.
  intros Habs.
  assert (Hp : p <> "") by (intros ->; discriminate).
  unfold filepath_Clean at 1.
  pose proof (Clean_nonempty p) as Hc. apply String.eqb_neq in Hc. rewrite Hc.
  rewrite (Clean_IsAbs p Hp), Habs. rewrite walk_Clean by auto.
  unfold filepath_Clean. apply String.eqb_neq in Hp. rewrite Hp, Habs. reflexivity.
Qed.

Lemma Join_Clean dir name :
  dir <> "" -> filepath_Join [dir; name] = filepath_Clean (dir ++ "/" ++ name).
Proof.
  intros Hd. simpl. apply String.eqb_neq in Hd. rewrite Hd. reflexivity.
Qed.

Lemma Join_nonempty dir name : dir <> "" -> filepath_Join [dir; name] <> "".
Proof.
  intros Hd. unfold filepath_Join. apply String.eqb_neq in Hd. rewrite Hd.
  apply Clean_nonempty.
Qed.

Lemma IsAbs_slash dir name :
  dir <> "" -> filepath_IsAbs (dir ++ "/" ++ name) = filepath_IsAbs dir.
Proof.
  intros Hd. destruct dir; [congruence|]. simpl. rewrite !IsAbs_cons. reflexivity.
Qed.

Lemma slash_nonempty dir name : (dir ++ "/" ++ name)%string <> "".
Proof. destruct dir; discriminate. Qed.


(** Joining a file name onto a directory leads to that entry of it. *)
Lemma resolve_Join w dir name :
  dir <> "" -> is_name name = true ->
  resolve w (filepath_Join [dir; name])
  = option_map (fun p => p ++ [name]) (resolve w dir).
Proof.
  intros Hd Hn. apply is_name_spec in Hn as (N1 & N2 & N3 & N4).
  rewrite (Join_Clean dir name Hd), resolve_Clean by apply slash_nonempty.
  unfold resolve.
  pose proof (slash_nonempty dir name) as Hq. apply String.eqb_neq in Hq. rewrite Hq.
  pose proof Hd as Hd'. apply String.eqb_neq in Hd'. rewrite Hd'.
  unfold walk_start. rewrite (IsAbs_slash dir name Hd).
  rewrite elements_app_sep, (elements_no_slash name N4), walk_app.
  simpl. rewrite walk_step_name by assumption. reflexivity.
Qed.

Lemma Join_absolute dir name :
  filepath_IsAbs dir = true ->
  filepath_IsAbs (filepath_Join [dir; name]) = true
  /\ filepath_Clean (filepath_Join [dir; name]) = filepath_Join [dir; name].
Proof.
  intros Habs. destruct dir as [|c dir]; [discriminate|].
  assert (Hj : filepath_Join [String c dir; name]
               = filepath_Clean (String c dir ++ "/" ++ name)) by reflexivity.
  assert (Hq : filepath_IsAbs (String c dir ++ "/" ++ name) = true)
    by (simpl; rewrite IsAbs_cons in *; assumption).
  rewrite Hj. split.
  - rewrite Clean_IsAbs by discriminate. assumption.
  - apply Clean_idempotent. assumption.
Qed.

(* ================================================================= *)
(** * Facts about the directory tree *)



Lemma alter_entry_absent name g es :
  find_entry name es = None -> alter_entry name g es = es.
Proof.
  induction es as [|[k c] es IH]; simpl; [reflexivity|].
  destruct (k =? name); [discriminate|].
  intros H. rewrite IH by assumption. reflexivity.
Qed.

Lemma alter_entry_ext name g1 g2 es c :
  find_entry name es = Some c -> g1 c = g2 c ->
  alter_entry name g1 es = alter_entry name g2 es.
Proof.
  induction es as [|[k c'] es IH]; simpl; [discriminate|].
  destruct (k =? name).
  - intros [= ->] ->. reflexivity.
  - intros H1 H2. rewrite IH by assumption. reflexivity.
Qed.

Lemma find_alter_other a a' g es :
  a <> a' -> find_entry a' (alter_entry a g es) = find_entry a' es.
Proof.
  intros Hne. induction es as [|[k c] es IH]; simpl; [reflexivity|].
  destruct (String.eqb_spec k a) as [->|Hka].
  - apply String.eqb_neq in Hne. rewrite Hne.
    destruct (g c); simpl; [rewrite Hne|]; reflexivity.
  - simpl. rewrite IH. reflexivity.
Qed.

Lemma find_alter_same a g es c c' :
  find_entry a es = Some c -> g c = Some c' ->
  find_entry a (alter_entry a g es) = Some c'.
Proof.
  induction es as [|[k c0] es IH]; simpl; [discriminate|].
  destruct (k =? a) eqn:Hk.
  - intros [= ->] ->. simpl. rewrite Hk. reflexivity.
  - intros H1 H2. simpl. rewrite Hk. auto.
Qed.



(** Unlinking an entry takes its name, once, out of the listing. *)
Lemma alter_entry_unlink a g es c :
  find_entry a es = Some c -> g c = None ->
  Permutation (map fst es) (a :: map fst (alter_entry a g es))
  /\ (forall kc, In kc (alter_entry a g es) -> In kc es).
Proof.
  induction es as [|[k c0] es IH]; simpl; [discriminate|].
  destruct (String.eqb_spec k a) as [->|Hne].
  - intros [= ->] ->. split; [reflexivity|auto].
  - intros H1 H2. destruct (IH H1 H2) as [P I]. split.
    + simpl. rewrite perm_swap. constructor. assumption.
    + intros kc [->|Hin]; [left; reflexivity|right; auto].
Qed.

Lemma lookup_app p q n :
  lookup (p ++ q) n
  = match lookup p n with
    | Some m => lookup q m
    | None => None
    end.
Proof.
  revert n. induction p as [|e p IH]; intros n; simpl; [reflexivity|].
  destruct n as [b|b es]; [reflexivity|].
  destruct (find_entry e es); [apply IH|reflexivity].
Qed.

Lemma alter_put p new n : alter (fun _ => Some new) p n = Some (put p new n).
Proof. unfold put. destruct p, n; reflexivity. Qed.

(** Rewriting below a directory is rewriting the directory. *)
Lemma alter_at g1 g2 d root n :
  lookup d root = Some n -> g1 n = g2 n -> alter g1 d root = alter g2 d root.
Proof.
  revert root. induction d as [|e d IH]; intros root; simpl.
  - intros [= ->]. auto.
  - destruct root as [b|b es]; [discriminate|].
    destruct (find_entry e es) as [c|] eqn:Hc; [|discriminate].
    intros H1 H2. rewrite (alter_entry_ext e (alter g1 d) (alter g2 d) es c); auto.
Qed.

Lemma alter_snoc g d f root :
  alter g (d ++ [f]) root = alter (alter g [f]) d root.
Proof.
  revert root. induction d as [|e d IH]; intros root; [reflexivity|].
  simpl app. cbn [alter]. destruct root as [b|b es]; [reflexivity|].
  destruct (find_entry e es) as [c|] eqn:Hc.
  - rewrite (alter_entry_ext e _ (alter (alter g [f]) d) es c Hc (IH c)). reflexivity.
  - rewrite !alter_entry_absent by assumption. reflexivity.
Qed.

Lemma alter_child g d f root b es :
  lookup d root = Some (Dir b es) ->
  alter g (d ++ [f]) root = Some (put d (Dir b (alter_entry f g es)) root).
Proof.
  intros H. rewrite alter_snoc, <- alter_put.
  apply (alter_at _ _ d root (Dir b es) H). reflexivity.
Qed.

Lemma lookup_put d new root n :
  lookup d root = Some n -> lookup d (put d new root) = Some new.
Proof.
  revert root. induction d as [|e d IH]; intros root; [reflexivity|].
  simpl. destruct root as [b|b es]; [discriminate|].
  destruct (find_entry e es) as [c|] eqn:Hc; [|discriminate].
  intros H. unfold put. simpl.
  rewrite (find_alter_same e _ es c (put d new c) Hc (alter_put d new c)).
  apply IH. assumption.
Qed.

Lemma alter_entry_twice e g1 g2 es c c1 :
  find_entry e es = Some c -> g1 c = Some c1 ->
  alter_entry e g2 (alter_entry e g1 es) = alter_entry e (fun _ => g2 c1) es.
Proof.
  induction es as [|[k c0] es IH]; simpl; [discriminate|].
  destruct (k =? e) eqn:Hk.
  - intros [= ->] ->. simpl. rewrite Hk. reflexivity.
  - intros H1 H2. simpl. rewrite Hk, IH by assumption. reflexivity.
Qed.

Lemma put_put d n1 n2 root n :
  lookup d root = Some n -> put d n2 (put d n1 root) = put d n2 root.
Proof.
  revert root. induction d as [|e d IH]; intros root; [reflexivity|].
  simpl. destruct root as [b|b es]; [discriminate|].
  destruct (find_entry e es) as [c|] eqn:Hc; [|discriminate].
  intros H. unfold put. simpl. f_equal.
  rewrite (alter_entry_twice e _ _ es c (put d n1 c) Hc (alter_put d n1 c)).
  apply (alter_entry_ext e _ _ es c Hc).
  rewrite !alter_put, (IH c H). reflexivity.
Qed.

Lemma put_same d root n : lookup d root = Some n -> put d n root = root.
Proof.
  revert root. induction d as [|e d IH]; intros root; simpl.
  - intros [= ->]. reflexivity.
  - destruct root as [b|b es]; [discriminate|].
    destruct (find_entry e es) as [c|] eqn:Hc; [|discriminate].
    intros H. unfold put. simpl. f_equal.
    rewrite (alter_entry_ext e _ (fun x => Some x) es c Hc)
      by (rewrite alter_put, (IH c H); reflexivity).
    clear -Hc. induction es as [|[k c0] es IHes]; simpl in *; [reflexivity|].
    destruct (k =? e); [reflexivity|]. rewrite IHes by assumption. reflexivity.
Qed.

(** Rewriting along one branch leaves a branch that forks off alone. *)
Lemma lookup_put_fork c a a' d q new root :
  a <> a' ->
  lookup (c ++ a' :: q) (put (c ++ a :: d) new root) = lookup (c ++ a' :: q) root.
Proof.
  intros Hne. revert root. induction c as [|e c IH]; intros root.
  - unfold put. simpl. destruct root as [b|b es]; [reflexivity|].
    simpl. rewrite find_alter_other by assumption. reflexivity.
  - unfold put. simpl. destruct root as [b|b es]; [reflexivity|].
    simpl. destruct (find_entry e es) as [ch|] eqn:Hch.
    + rewrite (find_alter_same e _ es ch _ Hch (alter_put _ new ch)). apply IH.
    + rewrite alter_entry_absent, Hch by assumption. reflexivity.
Qed.

(** Two paths: one continues the other, or they fork. *)
Lemma paths_compare (p q : list string) :
  (exists r, q = p ++ r) \/ (exists r, p = q ++ r)
  \/ (exists c a a' p' q', a <> a' /\ p = c ++ a :: p' /\ q = c ++ a' :: q').
Proof.
  revert q. induction p as [|x p IH]; intros q; [left; exists q; reflexivity|].
  destruct q as [|y q]; [right; left; exists (x :: p); reflexivity|].
  destruct (string_dec x y) as [<-|Hne].
  - destruct (IH q) as [[r ->]|[[r ->]|(c & a & a' & p' & q' & Hn & -> & ->)]].
    + left. exists r. reflexivity.
    + right. left. exists r. reflexivity.
    + right. right. exists (x :: c), a, a', p', q'. auto.
  - right. right. exists [], x, y, p, q. auto.
Qed.

Lemma lookup_snoc p e root :
  lookup (p ++ [e]) root
  = match lookup p root with
    | Some (Dir _ es) => find_entry e es
    | _ => None
    end.
Proof.
  rewrite lookup_app. destruct (lookup p root) as [[b|b es]|]; try reflexivity.
  simpl. destruct (find_entry e es); reflexivity.
Qed.

Lemma is_dir_parent p e root n :
  lookup (p ++ [e]) root = Some n -> is_dir (lookup p root) = true.
Proof.
  rewrite lookup_snoc. destruct (lookup p root) as [[b|b es]|]; (discriminate || reflexivity).
Qed.

Lemma lookup_put_prefix q r new root n :
  lookup q root = Some n -> lookup q (put (q ++ r) new root) = Some (put r new n).
Proof.
  revert root. induction q as [|e q IH]; intros root; simpl.
  - intros [= ->]. reflexivity.
  - destruct root as [b|b es]; [discriminate|].
    destruct (find_entry e es) as [c|] eqn:Hc; [|discriminate].
    intros H. unfold put at 1. simpl.
    rewrite (find_alter_same e _ es c _ Hc (alter_put _ new c)).
    apply IH. assumption.
Qed.

(* ================================================================= *)
(** * The loop of [emptyDirectory], seen from inside the directory *)

Lemma insert_name_perm x l : Permutation (insert_name x l) (x :: l).
Proof.
  induction l as [|y l IH]; simpl; [reflexivity|].
  destruct (String.leb x y); [reflexivity|].
  rewrite IH. apply perm_swap.
Qed.

Lemma sort_names_perm l : Permutation (sort_names l) l.
Proof.
  induction l as [|x l IH]; simpl; [reflexivity|].
  rewrite insert_name_perm, IH. reflexivity.
Qed.



Lemma resolve_ext w w' path : cwd w' = cwd w -> resolve w' path = resolve w path.
Proof. intros H. unfold resolve, walk_start. rewrite H. reflexivity. Qed.

#[local] Arguments filepath_Join : simpl never.

(* ================================================================= *)
(** * The kernel's walk *)

(** Where the kernel's walk arrives is where the path leads. *)
Lemma stat_walk_resolve es :
  forall root st st',
    stat_walk root st es = Some st' -> st' = fold_left walk_step es st.
Proof.
  induction es as [|e es IH]; intros root st st' H; simpl in H.
  - injection H as <-. reflexivity.
  - destruct (is_dir (lookup (rev st) root)); [|discriminate].
    change (fold_left walk_step (e :: es) st)
      with (fold_left walk_step es (walk_step st e)).
    unfold walk_step.
    destruct ((e =? "") || (e =? ".")); [apply (IH root _ _ H)|].
    destruct (e =? ".."); [apply (IH root _ _ H)|].
    destruct (lookup (rev st ++ [e]) root); [|discriminate].
    apply (IH root _ _ H).
Qed.

Lemma stat_walk_start root st es st' :
  stat_walk root st es = Some st' -> es <> [] ->
  is_dir (lookup (rev st) root) = true.
Proof.
  destruct es as [|e es]; [congruence|]. simpl.
  destruct (is_dir (lookup (rev st) root)); [reflexivity|discriminate].
Qed.

(** What a successful [os.Stat] tells: the walk went through, from a
    directory that exists, to the place the path leads to. *)
Lemma os_Stat_resolve s w n :
  os_Stat s w = Ok n ->
  exists d,
    resolve w s = Some d /\ lookup d (fs w) = Some n
    /\ stat_walk (fs w) (walk_start w s) (elements s) = Some (rev d)
    /\ is_dir (lookup (rev (walk_start w s)) (fs w)) = true.
Proof.
  unfold os_Stat, resolve. destruct (s =? ""); [discriminate|].
  destruct (stat_walk (fs w) (walk_start w s) (elements s)) as [st|] eqn:Hs;
    [|discriminate].
  destruct (lookup (rev st) (fs w)) as [m|] eqn:L; [|discriminate].
  intros [= ->].
  pose proof (stat_walk_resolve _ _ _ _ Hs) as E.
  pose proof (stat_walk_start _ _ _ _ Hs (elements_nonempty s)) as A.
  exists (rev st). rewrite rev_involutive. subst st. auto.
Qed.







(** ** The shape of a cleaned path *)










(* ================================================================= *)
(** * Emptying a directory *)

Lemma os_RemoveAll_trace path w :
  trace (fst (os_RemoveAll path w)) = trace w ++ [RemoveAll path]
  /\ now (fst (os_RemoveAll path w)) = now w
  /\ spawn (fst (os_RemoveAll path w)) = spawn w
  /\ cwd (fst (os_RemoveAll path w)) = cwd w.
Proof.
  unfold os_RemoveAll. cbv zeta.
  destruct (path =? ""); [simpl; auto|].
  destruct (stat_walk _ _ _) as [st|].
  - destruct (lookup (rev st) _) as [target|]; [|simpl; auto].
    destruct (rev st); destruct (purge target); simpl; auto.
  - destruct (stopped_by_file _ _ _); simpl; auto.
Qed.


(** One [os.RemoveAll] of a child of a directory, wherever the walk
    starts: the entry is rewritten, or nothing happens. *)
Lemma os_RemoveAll_child_any w dir d f b es :
  resolve w dir = Some d -> is_name f = true ->
  lookup d (fs w) = Some (Dir b es) ->
  let r := os_RemoveAll (filepath_Join [dir; f]) w in
  fs (fst r) = fs w
  \/ exists c,
      find_entry f es = Some c
      /\ fs (fst r) = put d (Dir b (alter_entry f purge es)) (fs w)
      /\ snd r = match purge c with
                 | None => None
                 | Some _ => Some (EBUSY (filepath_Join [dir; f]))
                 end.
Proof.
  intros Hd Hf Hl. cbv zeta.
  assert (Hdir : dir <> "") by (intros ->; discriminate).
  pose proof (resolve_Join w dir f Hdir Hf) as RJ. rewrite Hd in RJ. simpl in RJ.
  unfold resolve in RJ.
  pose proof (Join_nonempty dir f Hdir) as Hne. apply String.eqb_neq in Hne.
  rewrite Hne in RJ. injection RJ as RJ.
  unfold os_RemoveAll. cbv zeta. rewrite Hne.
  change (walk_start (emit ?e w) ?p) with (walk_start w p).
  cbn [fs emit].
  destruct (stat_walk (fs w) _ _) as [st|] eqn:W.
  - apply stat_walk_resolve in W. subst st. rewrite RJ, lookup_snoc, Hl.
    destruct (find_entry f es) as [c|] eqn:Hc; [|left; reflexivity].
    right. exists c. split; [reflexivity|].
    rewrite (alter_child purge d f (fs w) b es Hl).
    destruct (d ++ [f]) eqn:Hp; [destruct d; discriminate|].
    destruct (purge c); auto.
  - left. destruct (stopped_by_file _ _ _); reflexivity.
Qed.


Lemma alter_entry_In f g es kc :
  In kc (alter_entry f g es) ->
  In kc es \/ exists c, In (f, c) es /\ g c = Some (snd kc) /\ fst kc = f.
Proof.
  induction es as [|[k c0] es IH]; simpl; [contradiction|].
  destruct (String.eqb_spec k f) as [->|Hne].
  - destruct (g c0) as [c1|] eqn:Hg.
    + intros [<-|Hin]; [|auto]. right. exists c0. simpl. auto.
    + auto.
  - intros [<-|Hin]; [auto|].
    destruct (IH Hin) as [H|(c & Hc & Hg & Hk)]; [auto|].
    right. exists c. auto.
Qed.

(** Wherever the walk starts, the loop only rewrites the directory:
    what it leaves in it was there before, as it was or as the rest of a
    child that could not be removed entirely. *)
Lemma removeEach_inside dir d b files :
  forall w es,
    resolve w dir = Some d -> Forall (fun f => is_name f = true) files ->
    lookup d (fs w) = Some (Dir b es) ->
    cwd (fst (removeEach dir files w)) = cwd w
    /\ exists es',
        fs (fst (removeEach dir files w)) = put d (Dir b es') (fs w)
        /\ forall name c', In (name, c') es' ->
             exists c, In (name, c) es /\ (c' = c \/ purge c = Some c').
Proof.
  induction files as [|f rest IH]; intros w es Hd Hn Hl.
  - simpl. split; [reflexivity|]. exists es.
    rewrite (put_same d (fs w) (Dir b es) Hl). split; [reflexivity|]. eauto.
  - inversion Hn as [|? ? Hf Hrest]; subst.
    pose proof (os_RemoveAll_child_any w dir d f b es Hd Hf Hl) as H. cbv zeta in H.
    destruct (os_RemoveAll_trace (filepath_Join [dir; f]) w) as (_ & _ & _ & Hcwd).
    simpl. destruct (os_RemoveAll (filepath_Join [dir; f]) w) as [w1 err].
    simpl in Hcwd, H.
    assert (Hd1 : resolve w1 dir = Some d) by (rewrite (resolve_ext w w1 _ Hcwd); exact Hd).
    destruct H as [Hfs|(c & Hc & Hfs & Herr)].
    + assert (Hl1 : lookup d (fs w1) = Some (Dir b es)) by (rewrite Hfs; exact Hl).
      destruct err as [e|].
      * simpl. split; [assumption|]. exists es.
        rewrite Hfs, (put_same d (fs w) (Dir b es) Hl). split; [reflexivity|]. eauto.
      * destruct (IH w1 es Hd1 Hrest Hl1) as (C & es' & F & O).
        split; [congruence|]. exists es'. rewrite F, Hfs. split; [reflexivity|exact O].
    + destruct (purge c) as [r|] eqn:Hp; subst err.
      * simpl. split; [assumption|]. exists (alter_entry f purge es).
        split; [assumption|]. intros name c' Hin.
        destruct (alter_entry_In f purge es _ Hin) as [Hi|(c0 & Hc0 & Hg & Hk)]; [eauto|].
        simpl in Hg, Hk. subst name. eauto.
      * assert (Hl1 : lookup d (fs w1) = Some (Dir b (alter_entry f purge es)))
          by (rewrite Hfs; apply (lookup_put d _ (fs w) _ Hl)).
        destruct (IH w1 _ Hd1 Hrest Hl1) as (C & es' & F & O).
        split; [congruence|]. exists es'. split.
        -- rewrite F, Hfs. apply (put_put d _ _ (fs w) _ Hl).
        -- intros name c' Hin. destruct (O name c' Hin) as (c1 & Hc1 & Hor).
           destruct (alter_entry_unlink f purge es c Hc Hp) as [_ I].
           exists c1. split; [apply I; assumption|assumption].
Qed.

Lemma fsCalls_removals dir l : fsCalls (removals dir l) = removals dir l.
Proof. induction l as [|f l IH]; simpl; [reflexivity|]. rewrite IH. reflexivity. Qed.

(** The removals are issued file by file, in the order of the listing,
    up to the first that fails. *)
Lemma removeEach_trace dir files :
  forall w,
    exists attempted rest,
      files = attempted ++ rest
      /\ trace (fst (removeEach dir files w)) = trace w ++ removals dir attempted
      /\ now (fst (removeEach dir files w)) = now w
      /\ (snd (removeEach dir files w) = None -> rest = []).
Proof.
  induction files as [|f rest IH]; intros w.
  - exists [], []. simpl. rewrite app_nil_r. auto.
  - simpl. destruct (os_RemoveAll_trace (filepath_Join [dir; f]) w) as (T & N & _).
    destruct (os_RemoveAll (filepath_Join [dir; f]) w) as [w1 [e|]]; simpl in *.
    + exists [f], rest. simpl. repeat split; [assumption|assumption|discriminate].
    + destruct (IH w1) as (att & rst & -> & T1 & N1 & R1).
      exists (f :: att), rst. simpl. rewrite T1, T, <- app_assoc. simpl.
      repeat split; [congruence|assumption].
Qed.

(** The whole trace of [emptyDirectory]: the listing and removals on its
    directory, nothing else; the clock stands still. *)
Lemma emptyDirectory_trace dir w :
  exists attempted,
    trace (fst (emptyDirectory dir w))
    = trace w ++ ReadDir dir :: removals dir attempted
    /\ now (fst (emptyDirectory dir w)) = now w.
Proof.
  unfold emptyDirectory, ioutil_ReadDir. cbv zeta.
  assert (Hstop : exists attempted,
            trace (emit (ReadDir dir) w)
            = trace w ++ ReadDir dir :: removals dir attempted
            /\ now (emit (ReadDir dir) w) = now w)
    by (exists []; split; reflexivity).
  destruct (os_Stat dir _) as [[b|b es]|e]; try exact Hstop.
  destruct (removeEach_trace dir (sort_names (map fst es)) (emit (ReadDir dir) w))
    as (att & rst & _ & T & N & _).
  exists att. split; [|exact N].
  rewrite T. unfold emit. simpl. rewrite <- app_assoc. reflexivity.
Qed.

(** Every file-system call of [emptyDirectory] is on the directory it was
    given: one listing, then removals of joined names. *)
Lemma emptyDirectory_fsCalls dir w :
  exists fs_names,
    fsCalls (trace (fst (emptyDirectory dir w)))
    = fsCalls (trace w)
      ++ ReadDir dir :: map (fun f => RemoveAll (filepath_Join [dir; f])) fs_names.
Proof.
  destruct (emptyDirectory_trace dir w) as (att & T & _).
  exists att. rewrite T, fsCalls_app. simpl.
  change (map (fun f => RemoveAll (filepath_Join [dir; f])) att) with (removals dir att).
  rewrite fsCalls_removals. reflexivity.
Qed.


(** [emptyDirectory] on a path that cannot be listed. *)
Lemma emptyDirectory_unlisted w dir :
  (forall b es, os_Stat dir w <> Ok (Dir b es)) ->
  fs (fst (emptyDirectory dir w)) = fs w
  /\ cwd (fst (emptyDirectory dir w)) = cwd w
  /\ trace (fst (emptyDirectory dir w)) = trace w ++ [ReadDir dir]
  /\ snd (emptyDirectory dir w)
     = Some (match os_Stat dir w with
             | Ok _ => ENOTDIR dir
             | Err e => e
             end).
Proof.
  intros H. unfold emptyDirectory, ioutil_ReadDir. cbv zeta.
  change (os_Stat dir (emit (ReadDir dir) w)) with (os_Stat dir w).
  destruct (os_Stat dir w) as [[b|b es]|e]; auto.
  exfalso. apply (H b es). reflexivity.
Qed.

(** Whatever the path and wherever the walk starts, [emptyDirectory]
    only rewrites the directory the path leads to. *)
Lemma emptyDirectory_inside w dir d :
  resolve w dir = Some d -> well_named w dir ->
  cwd (fst (emptyDirectory dir w)) = cwd w
  /\ (fs (fst (emptyDirectory dir w)) = fs w
      \/ exists b es es',
          lookup d (fs w) = Some (Dir b es)
          /\ fs (fst (emptyDirectory dir w)) = put d (Dir b es') (fs w)
          /\ forall name c', In (name, c') es' ->
               exists c, In (name, c) es /\ (c' = c \/ purge c = Some c')).
Proof.
  intros Hd Hw.
  destruct (os_Stat dir w) as [[b|b es]|e] eqn:Hs;
    try (destruct (emptyDirectory_unlisted w dir) as (F & C & _);
         [intros b' es'; rewrite Hs; discriminate|auto]).
  destruct (os_Stat_resolve dir w _ Hs) as (d' & Hd' & Hl & _).
  rewrite Hd in Hd'. injection Hd' as <-.
  destruct (Hw b es) as [Hn _]; [unfold node_at; rewrite Hd; exact Hl|].
  unfold emptyDirectory, ioutil_ReadDir. cbv zeta.
  change (os_Stat dir (emit (ReadDir dir) w)) with (os_Stat dir w). rewrite Hs.
  destruct (removeEach_inside dir d b (sort_names (map fst es)) (emit (ReadDir dir) w) es)
    as (C & es' & F & O); [exact Hd| |exact Hl|].
  { eapply Permutation_Forall; [|exact Hn]. symmetry. apply sort_names_perm. }
  split; [exact C|]. right. exists b, es, es'. auto.
Qed.

(* ================================================================= *)
(** * Claims about the pipeline driver *)

Lemma executeCmd_clock ctx name arg w :
  (now w <= now (executeCmd ctx name arg w) <= Z.max (now w) (deadline ctx))%Z.
Proof. exec_cases; lia. Qed.

Lemma executeCmd_spawned_bound ctx name arg w :
  exists l,
    spawned (trace (executeCmd ctx name arg w)) = spawned (trace w) ++ l
    /\ Forall (fun s => (now w <= fst s < deadline ctx)%Z) l.
Proof.
  rewrite executeCmd_spawned.
  destruct (deadline ctx <=? now w)%Z eqn:Hd; [exists []; split; auto|].
  destruct (spawn w (name :: arg)); try (exists []; split; auto; fail).
  eexists; split; [reflexivity|]. constructor; [simpl; lia|constructor].
Qed.

(** The decoder reads back what [strconv.FormatUint] writes. *)
Lemma parse_digits_numeral d :
  forall acc,
    parse_digits (NilEmpty.string_of_uint d) acc
    = Some (match acc with
            | N0 => N.of_uint d
            | Npos p => Npos (Pos.of_uint_acc d p)
            end).
Proof.
  induction d; intros acc; cbn [NilEmpty.string_of_uint parse_digits];
    [destruct acc; reflexivity|..];
    match goal with
    | |- context [digit_of ?c] =>
        let v := eval vm_compute in (digit_of c) in
        change (digit_of c) with v
    end;
    cbv iota; rewrite IHd;
    (destruct acc; [reflexivity|]);
    cbn [Pos.of_uint_acc N.mul N.add]; do 3 f_equal; lia.
Qed.

Lemma FormatUint_nonempty n : strconv_FormatUint n <> "".
Proof.
  unfold strconv_FormatUint, NilZero.string_of_uint.
  destruct (N.to_uint n); discriminate.
Qed.

Lemma ParseUint32_FormatUint n :
  (n < 2 ^ 32)%N -> strconv_ParseUint32 (strconv_FormatUint n) = Some n.
Proof.
  intros Hn. unfold strconv_ParseUint32.
  pose proof (FormatUint_nonempty n) as Hne. apply String.eqb_neq in Hne. rewrite Hne.
  assert (H : parse_digits (strconv_FormatUint n) 0 = Some n).
  { unfold strconv_FormatUint, NilZero.string_of_uint.
    destruct (N.to_uint n) eqn:E;
      [destruct n; [discriminate|];
       exfalso; apply (DecimalPos.Unsigned.to_uint_nonnil p); exact E|..];
      cbv iota; rewrite parse_digits_numeral, <- E, DecimalN.Unsigned.of_to;
      reflexivity. }
  rewrite H. apply N.ltb_lt in Hn. rewrite Hn. reflexivity.
Qed.

(** [strconv.FormatUint] writes the decimal numeral of its argument. *)
Lemma FormatUint_decimal n :
  option_map N.of_uint (NilZero.uint_of_string (strconv_FormatUint n)) = Some n.
Proof.
  unfold strconv_FormatUint. rewrite NilZero.usu.
  - simpl. rewrite DecimalN.Unsigned.of_to. reflexivity.
  - destruct n; [discriminate|]. apply DecimalPos.Unsigned.to_uint_nonnil.
Qed.

(** The example of the specification, which is the repository's own
    [TestIndexRepository]. *)
Example indexRepository_example :
  cmdHistory
    (trace (fst (indexRepository test_opts test_req newResponseWriter
                   (bare_world all_succeed))))
  = [["zoekt-git-clone"; "-dest"; "/repo_dir"; "-name"; "100"; "-repoid"; "100";
      "https://example.com/repository.git"];
     ["git"; "-C"; "/repo_dir/100.git"; "fetch"];
     ["zoekt-git-index"; "-index"; "/index_dir"; "/repo_dir/100.git"]].
Proof. vm_compute. reflexivity. Qed.

(** C1, as stated, fails: with a relative repo directory and the working
    directory gone, [filepath.Abs] fails after the clone stage and
    [indexRepository] issues one invocation, not three. *)
Lemma indexRepository_one_invocation_when_path_unresolved :
  let h := cmdHistory
             (trace (fst (indexRepository relative_opts test_req newResponseWriter
                            lost_cwd_world))) in
  is_uint32 (RepoID test_req)
  /\ h = [["zoekt-git-clone"; "-dest"; "data/repos"; "-name"; "100"; "-repoid"; "100";
           "https://example.com/repository.git"]]
  /\ length h <> 3.
Proof. vm_compute. split; [reflexivity|]. split; [reflexivity|discriminate]. Qed.

(** C1 (amended): for every request and every configuration, whenever the
    absolute path of [repoDir/RepoID.git] resolves (to [p]), which it
    always does when [repoDir] is absolute, [indexRepository] issues
    exactly three invocations, in the order clone, fetch, index-build,
    with the vectors
    [zoekt-git-clone -dest repoDir -name RepoID -repoid RepoID CloneURL],
    [git -C p fetch] and [zoekt-git-index -index indexDir p]; [RepoID] is
    rendered in decimal and the same [p] goes into the second and third. *)
Theorem indexRepository_three_invocations :
  forall opts req rw w,
    (forall p,
        filepath_Abs (filepath_Join [repoDir opts; fmt_Sprintf_d_git (RepoID req)]) w
        = Ok p ->
        cmdHistory (trace (fst (indexRepository opts req rw w)))
        = cmdHistory (trace w)
          ++ [["zoekt-git-clone"; "-dest"; repoDir opts;
               "-name"; strconv_FormatUint (RepoID req);
               "-repoid"; strconv_FormatUint (RepoID req); CloneURL req];
              ["git"; "-C"; p; "fetch"];
              ["zoekt-git-index"; "-index"; indexDir opts; p]])
    /\ (filepath_IsAbs (repoDir opts) = true ->
        filepath_Abs (filepath_Join [repoDir opts; fmt_Sprintf_d_git (RepoID req)]) w
        = Ok (filepath_Join [repoDir opts; fmt_Sprintf_d_git (RepoID req)]))
    /\ option_map N.of_uint (NilZero.uint_of_string (strconv_FormatUint (RepoID req)))
       = Some (RepoID req).
Proof.
  intros opts req rw w. split; [|split].
  - intros p H. apply (indexRepository_history_ok opts req rw w p H).
  - intros Habs.
    destruct (Join_absolute (repoDir opts) (fmt_Sprintf_d_git (RepoID req)) Habs)
      as [Hj Hc].
    rewrite filepath_Abs_absolute by assumption. rewrite Hc. reflexivity.
  - apply FormatUint_decimal.
Qed.

Lemma indexRepository_three_invocations_witness :
  cmdHistory (trace (fst (indexRepository test_opts test_req newResponseWriter
                            (bare_world no_programs))))
  = [["zoekt-git-clone"; "-dest"; "/repo_dir"; "-name"; "100"; "-repoid"; "100";
      "https://example.com/repository.git"];
     ["git"; "-C"; "/repo_dir/100.git"; "fetch"];
     ["zoekt-git-index"; "-index"; "/index_dir"; "/repo_dir/100.git"]].
Proof.
  destruct (indexRepository_three_invocations test_opts test_req newResponseWriter
              (bare_world no_programs)) as (H1 & H2 & _).
  apply (H1 "/repo_dir/100.git"). apply H2. reflexivity.
Defined.


(** The repository's [TestLoggedRunFailure] situation in the pipeline:
    when no program can be started, each stage is still attempted, each
    failure is logged, and the response is untouched. *)
Example unknown_executables_all_attempted :
  let res := indexRepository test_opts test_req newResponseWriter
               (bare_world no_programs) in
  length (cmdHistory (trace (fst res))) = 3
  /\ spawned (trace (fst res)) = []
  /\ logged (trace (fst res))
     = [LogRun (clone_argv test_opts test_req);
        LogCommandFailed (clone_argv test_opts test_req)
          (ErrNotFound "zoekt-git-clone") "" "";
        LogRun (fetch_argv "/repo_dir/100.git");
        LogCommandFailed (fetch_argv "/repo_dir/100.git") (ErrNotFound "git") "" "";
        LogRun (index_argv test_opts "/repo_dir/100.git");
        LogCommandFailed (index_argv test_opts "/repo_dir/100.git")
          (ErrNotFound "zoekt-git-index") "" ""]
  /\ statusCode (snd res) = 200%Z.
Proof. vm_compute. auto. Qed.

(** A process that does not start, or does not exit with status zero,
    is an error of [Run]. *)
Lemma run_outcome_failure ctx name arg w :
  spawn w (name :: arg) = NotFound
  \/ (exists e, spawn w (name :: arg) = StartFailed e)
  \/ (exists code out errout elapsed,
         spawn w (name :: arg) = Exited code out errout elapsed /\ code <> 0%Z) ->
  exists e out errout,
    run_outcome (exec_CommandContext ctx name arg) w = (Some e, out, errout).
Proof.
  unfold run_outcome, cmd_Run, exec_CommandContext. simpl.
  intros [->|[[e ->]|(code & out & errout & elapsed & -> & Hc)]].
  - simpl. eauto.
  - destruct (deadline ctx <=? now w)%Z; simpl; eauto.
  - destruct (deadline ctx <=? now w)%Z; simpl; [eauto|].
    destruct (now w + Z.max 0 elapsed <? deadline ctx)%Z; simpl; [|eauto].
    apply Z.eqb_neq in Hc. rewrite Hc. eauto.
Qed.

Lemma indexRepository_logged_ok opts req rw w p :
  filepath_Abs (repo_path opts req) w = Ok p ->
  let ctx := context_WithTimeout (indexTimeout opts) w in
  let w1 := executeCmd ctx "zoekt-git-clone" (tl (clone_argv opts req)) w in
  let w2 := executeCmd ctx "git" (tl (fetch_argv p)) w1 in
  logged (trace (fst (indexRepository opts req rw w)))
  = logged (trace w)
    ++ (LogRun (clone_argv opts req)
        :: failure_lines (clone_argv opts req)
             (run_outcome (mkCmd ctx (clone_argv opts req)) w))
    ++ (LogRun (fetch_argv p)
        :: failure_lines (fetch_argv p) (run_outcome (mkCmd ctx (fetch_argv p)) w1))
    ++ (LogRun (index_argv opts p)
        :: failure_lines (index_argv opts p)
             (run_outcome (mkCmd ctx (index_argv opts p)) w2)).
Proof.
  intros H. cbv zeta. rewrite indexRepository_unfold. cbv zeta. rewrite H. cbn [fst].
  rewrite !executeCmd_logged. rewrite <- !app_assoc. reflexivity.
Qed.

(** C2: a failing child process is only logged.  [executeCmd] has no
    error result; what it adds to the log is the "run" line, followed by
    the failure line whenever the process did not start or did not exit
    with status zero.  Whatever becomes of the three processes, and so
    also when each of them fails, [indexRepository] goes on to the next
    stage: when the repository path resolves (to [p]) it invokes the
    clone, fetch and index-build vectors, which do not depend on the
    outcomes, its log shows each stage's "run" line after the previous
    stage's failure line, and the response is left untouched, hence
    200.  The one failure that reaches the caller is that of the path
    resolution: the answer is other than 200 exactly then. *)
Theorem process_failure_only_logged :
  forall opts req rw w,
    let ctx := context_WithTimeout (indexTimeout opts) w in
    (forall ctx0 name arg w0,
        logged (trace (executeCmd ctx0 name arg w0))
        = logged (trace w0)
          ++ LogRun (name :: arg)
          :: failure_lines (name :: arg)
               (run_outcome (exec_CommandContext ctx0 name arg) w0))
    /\ (forall ctx0 name arg w0,
           spawn w0 (name :: arg) = NotFound
           \/ (exists e, spawn w0 (name :: arg) = StartFailed e)
           \/ (exists code out errout elapsed,
                  spawn w0 (name :: arg) = Exited code out errout elapsed
                  /\ code <> 0%Z) ->
           exists e out errout,
             failure_lines (name :: arg)
               (run_outcome (exec_CommandContext ctx0 name arg) w0)
             = [LogCommandFailed (name :: arg) e out errout])
    /\ (forall p,
           filepath_Abs (repo_path opts req) w = Ok p ->
           let w1 := executeCmd ctx "zoekt-git-clone" (tl (clone_argv opts req)) w in
           let w2 := executeCmd ctx "git" (tl (fetch_argv p)) w1 in
           cmdHistory (trace (fst (indexRepository opts req rw w)))
           = cmdHistory (trace w)
             ++ [clone_argv opts req; fetch_argv p; index_argv opts p]
           /\ logged (trace (fst (indexRepository opts req rw w)))
              = logged (trace w)
                ++ (LogRun (clone_argv opts req)
                    :: failure_lines (clone_argv opts req)
                         (run_outcome (mkCmd ctx (clone_argv opts req)) w))
                ++ (LogRun (fetch_argv p)
                    :: failure_lines (fetch_argv p)
                         (run_outcome (mkCmd ctx (fetch_argv p)) w1))
                ++ (LogRun (index_argv opts p)
                    :: failure_lines (index_argv opts p)
                         (run_outcome (mkCmd ctx (index_argv opts p)) w2))
           /\ snd (indexRepository opts req rw w) = rw
           /\ statusCode (snd (indexRepository opts req newResponseWriter w)) = 200%Z)
    /\ (forall run,
           filepath_Abs (repo_path opts req) (with_programs run w)
           = filepath_Abs (repo_path opts req) w
           /\ cmdHistory (trace (fst (indexRepository opts req rw (with_programs run w))))
              = cmdHistory (trace (fst (indexRepository opts req rw w)))
           /\ snd (indexRepository opts req rw (with_programs run w))
              = snd (indexRepository opts req rw w))
    /\ (statusCode (snd (indexRepository opts req newResponseWriter w)) <> 200%Z
        <-> exists e, filepath_Abs (repo_path opts req) w = Err e).
Proof.
  intros opts req rw w. cbv zeta. split; [|split; [|split; [|split]]].
  - intros ctx0 name arg w0. apply executeCmd_logged.
  - intros ctx0 name arg w0 H.
    destruct (run_outcome_failure ctx0 name arg w0 H) as (e & out & errout & ->).
    exists e, out, errout. reflexivity.
  - intros p H. split; [|split; [|split]].
    + apply (indexRepository_history_ok opts req rw w p H).
    + apply (indexRepository_logged_ok opts req rw w p H).
    + rewrite indexRepository_response, H. reflexivity.
    + rewrite indexRepository_response, H. reflexivity.
  - intros run.
    assert (Habs : filepath_Abs (repo_path opts req) (with_programs run w)
                   = filepath_Abs (repo_path opts req) w)
      by (apply filepath_Abs_ext; reflexivity).
    split; [exact Habs|].
    rewrite !indexRepository_response, Habs. split; [|reflexivity].
    destruct (filepath_Abs (repo_path opts req) w) as [p|e] eqn:H.
    + rewrite (indexRepository_history_ok _ _ _ _ p H).
      rewrite (indexRepository_history_ok _ _ _ _ p Habs). reflexivity.
    + rewrite (indexRepository_history_err _ _ _ _ e H).
      rewrite (indexRepository_history_err _ _ _ _ e Habs). reflexivity.
  - rewrite indexRepository_response.
    destruct (filepath_Abs (repo_path opts req) w) as [p|e]; split.
    + intros H. exfalso. apply H. reflexivity.
    + intros [e H]. discriminate.
    + eauto.
    + intros _. discriminate.
Qed.

Lemma process_failure_only_logged_witness :
  let res := indexRepository test_opts test_req newResponseWriter
               (bare_world no_programs) in
  cmdHistory (trace (fst res))
  = [clone_argv test_opts test_req; fetch_argv "/repo_dir/100.git";
     index_argv test_opts "/repo_dir/100.git"]
  /\ logged (trace (fst res))
     = [LogRun (clone_argv test_opts test_req);
        LogCommandFailed (clone_argv test_opts test_req)
          (ErrNotFound "zoekt-git-clone") "" "";
        LogRun (fetch_argv "/repo_dir/100.git");
        LogCommandFailed (fetch_argv "/repo_dir/100.git") (ErrNotFound "git") "" "";
        LogRun (index_argv test_opts "/repo_dir/100.git");
        LogCommandFailed (index_argv test_opts "/repo_dir/100.git")
          (ErrNotFound "zoekt-git-index") "" ""]
  /\ statusCode (snd res) = 200%Z.
Proof.
  cbv zeta.
  destruct (process_failure_only_logged test_opts test_req newResponseWriter
              (bare_world no_programs)) as (_ & _ & H & _).
  destruct (H "/repo_dir/100.git" eq_refl) as (H1 & H2 & _ & H4).
  split; [exact H1|]. split; [exact H2|exact H4].
Defined.

(** C4: when the absolute path of [repoDir/RepoID.git] cannot be
    resolved during an /index request, the handler answers 400 and the
    pipeline stops there: the clone invocation, issued before the path
    is resolved, is the only one; neither [git fetch] nor the index
    build is issued and no further child is started.  It is the one
    failure of the pipeline that reaches the caller. *)
Theorem path_failure_aborts_pipeline :
  forall opts r w req e,
    json_Decode (RequestBody r) (mkIndexRequest "" 0) = Ok req ->
    filepath_Abs (repo_path opts req) w = Err e ->
    let res := serveIndex opts newResponseWriter r w in
    statusCode (snd res) = 400%Z
    /\ written (snd res) = ("JSON parser error" ++ LF)%string
    /\ cmdHistory (trace (fst res)) = cmdHistory (trace w) ++ [clone_argv opts req]
    /\ (forall argv, In argv (cmdHistory (trace (fst res))) ->
          In argv (cmdHistory (trace w)) \/ argv = clone_argv opts req)
    /\ (forall req' w',
          statusCode (snd (indexRepository opts req' newResponseWriter w')) <> 200%Z ->
          exists e', filepath_Abs (repo_path opts req') w' = Err e').
Proof.
  intros opts r w req e Hdec Habs. cbv zeta.
  unfold serveIndex. rewrite Hdec.
  rewrite indexRepository_response, (indexRepository_history_err _ _ _ _ e Habs), Habs.
  repeat split.
  - intros argv Hin. apply in_app_or in Hin as [Hin|[<-|[]]]; auto.
  - intros req' w' Hs. rewrite indexRepository_response in Hs.
    destruct (filepath_Abs (repo_path opts req') w') as [p|e']; [|eauto].
    exfalso. apply Hs. reflexivity.
Qed.

Lemma path_failure_aborts_pipeline_witness :
  let res := serveIndex relative_opts newResponseWriter (post "/index" test_body)
               lost_cwd_world in
  statusCode (snd res) = 400%Z
  /\ cmdHistory (trace (fst res)) = [clone_argv relative_opts test_req].
Proof.
  destruct (path_failure_aborts_pipeline relative_opts (post "/index" test_body)
              lost_cwd_world test_req (ENOENT "getwd") eq_refl eq_refl)
    as (H1 & _ & H3 & _).
  split; [exact H1|exact H3].
Defined.

Lemma executeCmd_expired ctx name arg w :
  (deadline ctx <= now w)%Z ->
  spawned (trace (executeCmd ctx name arg w)) = spawned (trace w)
  /\ now (executeCmd ctx name arg w) = now w
  /\ run_outcome (exec_CommandContext ctx name arg) w
     = (Some (match spawn w (name :: arg) with
              | NotFound => ErrNotFound name
              | _ => DeadlineExceeded
              end), "", "").
Proof.
  intros H. apply Z.leb_le in H.
  unfold executeCmd, loggedRun, run_outcome, cmd_Run, exec_CommandContext,
    log_Printf, emit.
  simpl. destruct (spawn w (name :: arg)); rewrite ?H; simpl;
    rewrite !spawned_app; simpl; rewrite !app_nil_r; auto.
Qed.

(** A clone that outlives the whole budget is killed at the deadline,
    and the two later stages, though still invoked, start no child. *)
Example slow_clone_starves_later_stages :
  let opts := mkOptions 500 "" "/index_dir" "/repo_dir" "" in
  let w' := fst (indexRepository opts test_req newResponseWriter (bare_world all_succeed)) in
  length (cmdHistory (trace w')) = 3
  /\ spawned (trace w') = [(0%Z, clone_argv opts test_req)]
  /\ now w' = 500%Z.
Proof. vm_compute. auto. Qed.

(** C7: the three stages of one run execute under a single context,
    created at entry with the deadline [now + indexTimeout]; every
    [executeCmd] of the run receives that same context, so the deadline
    is never moved.  Every child the run starts is started before the
    deadline, the clock at exit is not past it (a child still running
    then is killed), and a stage invoked once the deadline has passed
    starts no child: it fails with the context's error, or with the
    lookup error when its program does not exist. *)
Theorem pipeline_shares_one_deadline :
  forall opts req rw w,
    let w' := fst (indexRepository opts req rw w) in
    let ctx := context_WithTimeout (indexTimeout opts) w in
    deadline ctx = (now w + indexTimeout opts)%Z
    /\ (exists k, contexts (trace w') = contexts (trace w) ++ repeat ctx k
                  /\ (k = 1 \/ k = 3))
    /\ (exists l, spawned (trace w') = spawned (trace w) ++ l
                  /\ Forall (fun s => (now w <= fst s < deadline ctx)%Z) l)
    /\ (now w <= now w' <= Z.max (now w) (deadline ctx))%Z
    /\ (forall name arg w0,
           (deadline ctx <= now w0)%Z ->
           spawned (trace (executeCmd ctx name arg w0)) = spawned (trace w0)
           /\ now (executeCmd ctx name arg w0) = now w0
           /\ run_outcome (exec_CommandContext ctx name arg) w0
              = (Some (match spawn w0 (name :: arg) with
                       | NotFound => ErrNotFound name
                       | _ => DeadlineExceeded
                       end), "", "")).
Proof.
  intros opts req rw w. cbv zeta.
  set (ctx := context_WithTimeout (indexTimeout opts) w).
  split; [reflexivity|].
  rewrite indexRepository_unfold. cbv zeta. fold ctx.
  set (w1 := executeCmd ctx "zoekt-git-clone" (tl (clone_argv opts req)) w).
  pose proof (executeCmd_clock ctx "zoekt-git-clone" (tl (clone_argv opts req)) w) as C1.
  destruct (executeCmd_spawned_bound ctx "zoekt-git-clone" (tl (clone_argv opts req)) w)
    as (l1 & S1 & B1).
  fold w1 in C1, S1.
  destruct (filepath_Abs (repo_path opts req) w) as [p|e]; cbn [fst].
  - set (w2 := executeCmd ctx "git" (tl (fetch_argv p)) w1).
    pose proof (executeCmd_clock ctx "git" (tl (fetch_argv p)) w1) as C2.
    destruct (executeCmd_spawned_bound ctx "git" (tl (fetch_argv p)) w1)
      as (l2 & S2 & B2).
    fold w2 in C2, S2.
    pose proof (executeCmd_clock ctx "zoekt-git-index" (tl (index_argv opts p)) w2) as C3.
    destruct (executeCmd_spawned_bound ctx "zoekt-git-index" (tl (index_argv opts p)) w2)
      as (l3 & S3 & B3).
    split; [|split; [|split]].
    + exists 3. unfold w2, w1. rewrite !executeCmd_contexts, <- !app_assoc. auto.
    + exists (l1 ++ l2 ++ l3). rewrite S3, S2, S1, <- !app_assoc. split; [reflexivity|].
      repeat (apply Forall_app; split); [exact B1| |].
      * eapply Forall_impl; [|exact B2]. simpl. intros s Hs. lia.
      * eapply Forall_impl; [|exact B3]. simpl. intros s Hs. lia.
    + lia.
    + intros name arg w0. apply executeCmd_expired.
  - split; [|split; [|split]].
    + exists 1. unfold log_Printf, emit. simpl trace.
      rewrite contexts_app. unfold w1. rewrite executeCmd_contexts.
      simpl. rewrite app_nil_r. auto.
    + exists l1. unfold log_Printf, emit. simpl trace.
      rewrite spawned_app, S1. simpl. rewrite app_nil_r. auto.
    + unfold log_Printf, emit. cbn [now]. lia.
    + intros name arg w0. apply executeCmd_expired.
Qed.

Lemma pipeline_shares_one_deadline_witness :
  let ctx := context_WithTimeout 0 (bare_world all_succeed) in
  spawned (trace (executeCmd ctx "git" ["-C"; "/repo_dir/100.git"; "fetch"]
                    (bare_world all_succeed))) = [].
Proof.
  destruct (pipeline_shares_one_deadline
              (mkOptions 0 "" "/index_dir" "/repo_dir" "") test_req newResponseWriter
              (bare_world all_succeed)) as (_ & _ & _ & _ & H).
  destruct (H "git" ["-C"; "/repo_dir/100.git"; "fetch"] (bare_world all_succeed))
    as (H1 & _).
  - simpl. lia.
  - exact H1.
Defined.

(* ================================================================= *)
(** * Claims about the /index handler *)

Lemma decode_members_unknown ms :
  forall req key,
    In key (map fst ms) -> find_field key = None ->
    exists e, decode_members ms req = Err e.
Proof.
  induction ms as [|[k v] ms IH]; intros req key Hin Hf; [contradiction|].
  simpl. destruct (find_field k) as [f|] eqn:Hk; [|eauto].
  destruct (store f v req) as [req'|e]; [|eauto].
  destruct Hin as [Heq|Hin]; [simpl in Heq; congruence|].
  apply (IH req' key Hin Hf).
Qed.

Lemma serveIndex_decode_error opts rw r w e :
  json_Decode (RequestBody r) (mkIndexRequest "" 0) = Err e ->
  serveIndex opts rw r w
  = (log_Printf (LogDecodeError e) w,
     http_Error rw "JSON parser error" StatusBadRequest).
Proof. intros H. unfold serveIndex. rewrite H. reflexivity. Qed.

(** C3, as stated, fails twice.  The body [null] is not a JSON object,
    yet it decodes (into the zero request) and the whole pipeline runs
    with a 200; and a body that decodes gets a 400 when the repository
    path cannot be resolved. *)
Lemma serveIndex_null_body_runs_and_decoded_body_can_get_400 :
  (let res := serveIndex test_opts newResponseWriter (post "/index" (Value JNull))
                (bare_world all_succeed) in
   statusCode (snd res) = 200%Z
   /\ written (snd res) = ""
   /\ length (cmdHistory (trace (fst res))) = 3)
  /\ (let res := serveIndex relative_opts newResponseWriter (post "/index" test_body)
                   lost_cwd_world in
      json_Decode test_body (mkIndexRequest "" 0) = Ok test_req
      /\ statusCode (snd res) = 400%Z).
Proof. vm_compute. auto. Qed.

(** C3 (amended): whenever strict decoding of the body fails, the handler
    answers 400 with the plain-text line "JSON parser error" and runs no
    pipeline stage; decoding fails on a malformed body, on a value that
    is neither an object nor [null], and on an object with a key that
    matches neither [CloneURL] nor [RepoID] (letter case aside).  For
    every body that decodes, the pipeline driver is invoked on the
    decoded request, its clone stage is issued, and the handler answers
    200 with an empty body when the repository path resolves, 400
    otherwise. *)
Theorem serveIndex_strict_decoding :
  forall opts r w,
    let res := serveIndex opts newResponseWriter r w in
    (forall e,
        json_Decode (RequestBody r) (mkIndexRequest "" 0) = Err e ->
        statusCode (snd res) = 400%Z
        /\ written (snd res) = ("JSON parser error" ++ LF)%string
        /\ cmdHistory (trace (fst res)) = cmdHistory (trace w)
        /\ spawned (trace (fst res)) = spawned (trace w))
    /\ ((exists e, RequestBody r = Malformed e)
        \/ (exists v, RequestBody r = Value v
                      /\ v <> JNull /\ (forall ms, v <> JObject ms))
        \/ (exists ms key, RequestBody r = Value (JObject ms)
                           /\ In key (map fst ms) /\ find_field key = None) ->
        exists e, json_Decode (RequestBody r) (mkIndexRequest "" 0) = Err e)
    /\ (forall req,
           json_Decode (RequestBody r) (mkIndexRequest "" 0) = Ok req ->
           res = indexRepository opts req newResponseWriter w
           /\ (exists later,
                  cmdHistory (trace (fst res))
                  = cmdHistory (trace w) ++ clone_argv opts req :: later)
           /\ (forall p, filepath_Abs (repo_path opts req) w = Ok p ->
                  statusCode (snd res) = 200%Z /\ written (snd res) = "")
           /\ (forall e, filepath_Abs (repo_path opts req) w = Err e ->
                  statusCode (snd res) = 400%Z)).
Proof.
  intros opts r w. cbv zeta. split; [|split].
  - intros e H. rewrite (serveIndex_decode_error _ _ _ _ e H).
    unfold log_Printf, emit. simpl.
    rewrite cmdHistory_app, spawned_app. simpl. rewrite !app_nil_r. auto.
  - intros [[e ->]|[(v & -> & Hn & Ho)|(ms & key & -> & Hin & Hf)]].
    + exists e. reflexivity.
    + destruct v; simpl; eauto; [congruence|]. exfalso. apply (Ho members). reflexivity.
    + simpl. apply (decode_members_unknown ms _ key Hin Hf).
  - intros req H. unfold serveIndex. rewrite H. split; [reflexivity|].
    split; [|split].
    + destruct (filepath_Abs (repo_path opts req) w) as [p|e] eqn:Habs.
      * rewrite (indexRepository_history_ok _ _ _ _ p Habs). eauto.
      * rewrite (indexRepository_history_err _ _ _ _ e Habs). eauto.
    + intros p Habs. rewrite indexRepository_response, Habs. auto.
    + intros e Habs. rewrite indexRepository_response, Habs. reflexivity.
Qed.

Lemma serveIndex_strict_decoding_witness :
  let r := post "/index"
             (Value (JObject [("CloneURL", JString "u"); ("Token", JString "t")])) in
  let res := serveIndex test_opts newResponseWriter r (bare_world all_succeed) in
  statusCode (snd res) = 400%Z
  /\ cmdHistory (trace (fst res)) = []
  /\ statusCode (snd (serveIndex test_opts newResponseWriter (post "/index" test_body)
                        (bare_world all_succeed))) = 200%Z.
Proof.
  cbv zeta.
  destruct (serveIndex_strict_decoding test_opts
              (post "/index"
                 (Value (JObject [("CloneURL", JString "u"); ("Token", JString "t")])))
              (bare_world all_succeed)) as (H1 & H2 & _).
  destruct H2 as [e He].
  { right. right. exists [("CloneURL", JString "u"); ("Token", JString "t")], "Token".
    split; [reflexivity|]. split; [simpl; auto|reflexivity]. }
  destruct (H1 e He) as (S & _ & C & _).
  destruct (serveIndex_strict_decoding test_opts (post "/index" test_body)
              (bare_world all_succeed)) as (_ & _ & H3).
  destruct (H3 test_req eq_refl) as (_ & _ & H200 & _).
  destruct (H200 "/repo_dir/100.git" eq_refl) as [S200 _].
  split; [exact S|]. split; [exact C|exact S200].
Defined.

(** C9, as stated, fails, in two ways.  The body [{}] decodes to the zero
    request, but with the repository path unresolvable the pipeline stops
    after the clone stage and the answer is 400.  And unknown fields and
    malformed JSON are not all that strict decoding rejects: the body
    [{"RepoID": "7"}] is well-formed and names a known field only, yet
    it is rejected, as is the well-formed body [[]]. *)
Lemma strict_decoding_rejects_more_and_pipeline_can_stop :
  (let res := serveIndex relative_opts newResponseWriter (post "/index" (Value (JObject [])))
                lost_cwd_world in
   json_Decode (Value (JObject [])) (mkIndexRequest "" 0) = Ok (mkIndexRequest "" 0)
   /\ cmdHistory (trace (fst res))
      = [["zoekt-git-clone"; "-dest"; "data/repos"; "-name"; "0"; "-repoid"; "0"; ""]]
   /\ statusCode (snd res) = 400%Z)
  /\ (find_field "RepoID" = Some FRepoID
      /\ json_Decode (Value (JObject [("RepoID", JString "7")])) (mkIndexRequest "" 0)
         = Err (UnmarshalTypeError "RepoID")
      /\ json_Decode (Value (JArray [])) (mkIndexRequest "" 0)
         = Err (UnmarshalTypeError "indexRequest")
      /\ statusCode
           (snd (serveIndex test_opts newResponseWriter
                   (post "/index" (Value (JObject [("RepoID", JString "7")])))
                   (bare_world all_succeed))) = 400%Z).
Proof. vm_compute. auto 10. Qed.

Lemma store_error_any_request f v req e :
  store f v req = Err e -> forall req', store f v req' = Err e.
Proof.
  destruct f, v; simpl; try discriminate; auto.
  destruct (strconv_ParseUint32 literal); [discriminate|auto].
Qed.

(** A value is refused by its field when it is not [null] and not of the
    field's kind: for [CloneURL] not a string, for [RepoID] not a number
    written as a decimal numeral below 2^32. *)
Lemma store_error_unfit f v req e :
  store f v req = Err e ->
  v <> JNull
  /\ match f with
     | FCloneURL => forall s, v <> JString s
     | FRepoID => forall lit, v = JNumber lit -> strconv_ParseUint32 lit = None
     end.
Proof.
  destruct f, v; simpl; try discriminate; intros H;
    (split; [discriminate|]); try (intros; discriminate).
  intros lit [= <-]. destruct (strconv_ParseUint32 literal); [discriminate|reflexivity].
Qed.

(** An object is refused only for one of its members: an unknown key,
    or a value its field refuses. *)
Lemma decode_members_error ms :
  forall req e,
    decode_members ms req = Err e ->
    exists key v,
      In (key, v) ms
      /\ (find_field key = None
          \/ exists f e', find_field key = Some f
                          /\ store f v (mkIndexRequest "" 0) = Err e').
Proof.
  induction ms as [|[k v0] ms IH]; intros req e H; simpl in H; [discriminate|].
  destruct (find_field k) as [f0|] eqn:Hk.
  - destruct (store f0 v0 req) as [req1|e0] eqn:Hs.
    + destruct (IH req1 e H) as (key & v & Hin & Hor).
      exists key, v. split; [right; exact Hin|exact Hor].
    + exists k, v0. split; [left; reflexivity|]. right. exists f0, e0.
      split; [exact Hk|]. apply (store_error_any_request f0 v0 req e0 Hs).
  - exists k, v0. split; [left; reflexivity|]. left. exact Hk.
Qed.

(** C9 (amended): strict decoding does not reject missing fields.  The
    body [{}] decodes to [CloneURL ""] and [RepoID 0]; a body with only
    [CloneURL] leaves [RepoID] at 0 and one with only [RepoID] leaves
    [CloneURL] empty.  It does reject a malformed body and an object
    with an unknown key; and whatever it rejects is malformed, or
    neither an object nor [null], or an object one of whose members has
    an unknown key or a value that its field cannot hold (for [CloneURL]
    anything but a string or [null], for [RepoID] anything but a decimal
    numeral below 2^32 or [null]).  For [{}], whenever the absolute path
    of [repoDir/0.git] resolves (to [p]), the three stages run with an
    empty clone URL, with name and repo id ["0"], against [p], and the
    answer is 200. *)
Theorem missing_fields_decode_to_zero :
  json_Decode (Value (JObject [])) (mkIndexRequest "" 0) = Ok (mkIndexRequest "" 0)
  /\ (forall url,
         json_Decode (Value (JObject [("CloneURL", JString url)])) (mkIndexRequest "" 0)
         = Ok (mkIndexRequest url 0))
  /\ (forall id,
         is_uint32 id ->
         json_Decode (Value (JObject [("RepoID", JNumber (strconv_FormatUint id))]))
           (mkIndexRequest "" 0)
         = Ok (mkIndexRequest "" id))
  /\ (forall body,
         (exists e, body = Malformed e)
         \/ (exists ms key, body = Value (JObject ms)
                            /\ In key (map fst ms) /\ find_field key = None) ->
         exists e, json_Decode body (mkIndexRequest "" 0) = Err e)
  /\ (forall body e,
         json_Decode body (mkIndexRequest "" 0) = Err e ->
         body = Malformed e
         \/ (exists v, body = Value v /\ v <> JNull /\ forall ms, v <> JObject ms)
         \/ (exists ms key v,
                body = Value (JObject ms) /\ In (key, v) ms
                /\ (find_field key = None
                    \/ (v <> JNull
                        /\ ((find_field key = Some FCloneURL
                             /\ forall s, v <> JString s)
                            \/ (find_field key = Some FRepoID
                                /\ forall lit, v = JNumber lit ->
                                               strconv_ParseUint32 lit = None))))))
  /\ (forall opts r w p,
         RequestBody r = Value (JObject []) ->
         filepath_Abs (filepath_Join [repoDir opts; "0.git"]) w = Ok p ->
         let res := serveIndex opts newResponseWriter r w in
         cmdHistory (trace (fst res))
         = cmdHistory (trace w)
           ++ [["zoekt-git-clone"; "-dest"; repoDir opts; "-name"; "0"; "-repoid"; "0"; ""];
               ["git"; "-C"; p; "fetch"];
               ["zoekt-git-index"; "-index"; indexDir opts; p]]
         /\ statusCode (snd res) = 200%Z).
Proof.
  split; [reflexivity|]. split; [reflexivity|]. split; [|split; [|split]].
  - intros id Hid. simpl. rewrite (ParseUint32_FormatUint id Hid). reflexivity.
  - intros body [[e ->]|(ms & key & -> & Hin & Hf)].
    + exists e. reflexivity.
    + simpl. apply (decode_members_unknown ms _ key Hin Hf).
  - intros body e H. destruct body as [e0|v]; [left; simpl in H; congruence|].
    right. destruct v; simpl in H; try discriminate;
      try (left; eexists; split; [reflexivity|]; split; [discriminate|];
           intros ms; discriminate).
    right. destruct (decode_members_error members _ e H) as (key & v & Hin & Hor).
    exists members, key, v. split; [reflexivity|]. split; [exact Hin|].
    destruct Hor as [Hn|(f & e' & Hf & Hs)]; [left; exact Hn|]. right.
    destruct (store_error_unfit f v _ e' Hs) as [Hnull Hfit].
    split; [exact Hnull|]. destruct f; [left|right]; auto.
  - intros opts r w p Hb Habs. cbv zeta. unfold serveIndex. rewrite Hb.
    cbn [json_Decode decode_members].
    assert (H : filepath_Abs (repo_path opts (mkIndexRequest "" 0)) w = Ok p) by exact Habs.
    rewrite (indexRepository_history_ok _ _ _ _ p H), indexRepository_response, H.
    split; reflexivity.
Qed.

Lemma missing_fields_decode_to_zero_witness :
  json_Decode (Value (JObject [("RepoID", JNumber "7")])) (mkIndexRequest "" 0)
  = Ok (mkIndexRequest "" 7)
  /\ (exists e,
         json_Decode (Value (JObject [("CloneURL", JString "u"); ("Token", JString "t")]))
           (mkIndexRequest "" 0) = Err e)
  /\ cmdHistory
       (trace (fst (serveIndex test_opts newResponseWriter
                      (post "/index" (Value (JObject []))) (bare_world all_succeed))))
     = [["zoekt-git-clone"; "-dest"; "/repo_dir"; "-name"; "0"; "-repoid"; "0"; ""];
        ["git"; "-C"; "/repo_dir/0.git"; "fetch"];
        ["zoekt-git-index"; "-index"; "/index_dir"; "/repo_dir/0.git"]].
Proof.
  destruct missing_fields_decode_to_zero as (_ & _ & H3 & H4 & _ & H6).
  split; [|split].
  - apply (H3 7%N). reflexivity.
  - apply H4. right.
    exists [("CloneURL", JString "u"); ("Token", JString "t")], "Token".
    split; [reflexivity|]. split; [simpl; auto|reflexivity].
  - destruct (H6 test_opts (post "/index" (Value (JObject []))) (bare_world all_succeed)
                "/repo_dir/0.git" eq_refl eq_refl) as [H _].
    exact H.
Defined.

(* ================================================================= *)
(** * Claims about /truncate and [emptyDirectory] *)






(** The repository's directory with [a], [b] and [c/d]: emptied, and
    still there; a path that does not exist is an error. *)
Example emptyDirectory_example :
  let res := emptyDirectory "/data/repos" sample_world in
  snd res = None
  /\ node_at (fst res) "/data/repos" = Some (Dir false [])
  /\ node_at (fst res) "/data/index" = node_at sample_world "/data/index"
  /\ snd (emptyDirectory "/data/nowhere" sample_world) = Some (ENOENT "/data/nowhere").
Proof. vm_compute. auto. Qed.

(** With [b] impossible to unlink: [a], listed before it, is gone for
    good; [b] and [c], listed after, are still there. *)
Example emptyDirectory_partial_example :
  let res := emptyDirectory "/data/repos" pinned_world in
  snd res = Some (EBUSY "/data/repos/b")
  /\ node_at (fst res) "/data/repos"
     = Some (Dir false [("b", File true); ("c", Dir false [("d", File false)])]).
Proof. vm_compute. auto. Qed.



(** /truncate on the pinned tree: the first directory fails, the answer
    is 500, the index directory is not touched, and [a] stays removed. *)
Example serveTruncate_partial_example :
  let res := serveTruncate default_opts newResponseWriter
               (post "/truncate" (Malformed ErrEOF)) pinned_world in
  statusCode (snd res) = 500%Z
  /\ fsCalls (trace (fst res))
     = [ReadDir "/data/repos"; RemoveAll "/data/repos/a"; RemoveAll "/data/repos/b"]
  /\ node_at (fst res) "/data/repos"
     = Some (Dir false [("b", File true); ("c", Dir false [("d", File false)])])
  /\ node_at (fst res) "/data/index" = node_at pinned_world "/data/index".
Proof. vm_compute. auto. Qed.

(** C5: /truncate empties the repo directory first and the index
    directory second.  If emptying the repo directory fails the answer is
    500 with the body "Failed to delete repoDir", no file-system call is
    made on the index directory, and the tree is left as the failed
    emptying left it; if emptying the index directory fails the answer is
    500 with the body "Failed to delete indexDir" and the tree is left as
    the two emptyings left it; if both succeed the answer is 200 with an
    empty body. *)
Theorem truncate_empties_repo_then_index :
  forall opts r w,
    let res := serveTruncate opts newResponseWriter r w in
    let first := emptyDirectory (repoDir opts) w in
    let second := emptyDirectory (indexDir opts) (fst first) in
    match snd first with
    | Some _ =>
        statusCode (snd res) = 500%Z
        /\ written (snd res) = ("Failed to delete repoDir" ++ LF)%string
        /\ fs (fst res) = fs (fst first)
        /\ exists attempted,
            fsCalls (trace (fst res))
            = fsCalls (trace w)
              ++ ReadDir (repoDir opts) :: removals (repoDir opts) attempted
    | None =>
        (exists attempted1 attempted2,
            fsCalls (trace (fst res))
            = fsCalls (trace w)
              ++ (ReadDir (repoDir opts) :: removals (repoDir opts) attempted1)
              ++ (ReadDir (indexDir opts) :: removals (indexDir opts) attempted2))
        /\ fs (fst res) = fs (fst second)
        /\ match snd second with
           | Some _ =>
               statusCode (snd res) = 500%Z
               /\ written (snd res) = ("Failed to delete indexDir" ++ LF)%string
           | None =>
               statusCode (snd res) = 200%Z /\ written (snd res) = ""
           end
    end.
Proof.
  intros opts r w. cbv zeta. unfold serveTruncate.
  destruct (emptyDirectory_fsCalls (repoDir opts) w) as [l1 H1].
  destruct (emptyDirectory (repoDir opts) w) as [w1 [e1|]]; cbn [fst snd] in *.
  - repeat split. exists l1. unfold log_Printf, emit. cbn [trace].
    rewrite fsCalls_app, H1. simpl. rewrite app_nil_r. reflexivity.
  - destruct (emptyDirectory_fsCalls (indexDir opts) w1) as [l2 H2].
    destruct (emptyDirectory (indexDir opts) w1) as [w2 [e2|]]; cbn [fst snd] in *.
    + split; [|repeat split]. exists l1, l2. unfold log_Printf, emit. cbn [trace].
      rewrite fsCalls_app, H2, H1. simpl. rewrite app_nil_r, <- app_assoc. reflexivity.
    + split; [|repeat split]. exists l1, l2. rewrite H2, H1, <- app_assoc. reflexivity.
Qed.

(** The option sets of the examples are what [parseOptions] builds. *)
Lemma example_opts_parsed :
  parseOptions "/data" "/data" 3600000000000 ":6060" = Some nested_opts
  /\ parseOptions "/data" "" 3600000000000 ":6060" = Some default_opts
  /\ parseOptions "data" "" 3600000000000 ":6060" = Some relative_opts
  /\ parseOptions "" "" 3600000000000 ":6060" = None.
Proof. vm_compute. auto. Qed.

(** Two /truncate requests in a row, as the server sees them: fine in
    the default layout, not when the repo cache lies inside the index
    directory. *)
Example truncate_twice_example :
  let r := post "/truncate" (Malformed ErrEOF) in
  map statusCode (snd (startIndexingApi default_opts [r; r] sample_world))
  = [200%Z; 200%Z]
  /\ map statusCode (snd (startIndexingApi nested_opts [r; r] sample_world))
     = [200%Z; 500%Z].
Proof. vm_compute. auto. Qed.








(* ================================================================= *)
(** * The HTTP method *)

(** C10: neither handler looks at the method.  A request for /index or
    for /truncate is served, whatever its method, exactly as the POST
    with the same body in the same world; so a GET /truncate empties
    both managed directories. *)
Theorem handlers_ignore_method :
  forall opts method body w,
    ServeHTTP opts (mkRequest method "/index" body) w
    = ServeHTTP opts (mkRequest "POST" "/index" body) w
    /\ ServeHTTP opts (mkRequest method "/truncate" body) w
       = ServeHTTP opts (mkRequest "POST" "/truncate" body) w
    /\ (let res := ServeHTTP default_opts (mkRequest "GET" "/truncate" body)
                     sample_world in
        statusCode (snd res) = 200%Z
        /\ node_at (fst res) "/data/repos" = Some (Dir false [])
        /\ node_at (fst res) "/data/index" = Some (Dir false [])).
Proof.
  intros opts method body w. split; [reflexivity|]. split; [reflexivity|].
  vm_compute. auto.
Qed.

(* ================================================================= *)
(** * Startup: creating the directories *)

Lemma same_kind_refl n : same_kind n n.
Proof. destruct n; reflexivity. Qed.

Lemma same_kind_trans n1 n2 n3 :
  same_kind n1 n2 -> same_kind n2 n3 -> same_kind n1 n3.
Proof. destruct n1, n2, n3; simpl; intros; congruence || contradiction. Qed.

Lemma extends_refl root : extends root root.
Proof.
  intros q n H. exists n. split; [assumption|]. split; [apply same_kind_refl|auto].
Qed.

Lemma extends_trans r1 r2 r3 : extends r1 r2 -> extends r2 r3 -> extends r1 r3.
Proof.
  intros H12 H23 q n H.
  destruct (H12 q n H) as (n2 & L2 & K2 & F2).
  destruct (H23 q n2 L2) as (n3 & L3 & K3 & F3).
  exists n3. split; [assumption|]. split; [eapply same_kind_trans; eassumption|].
  intros b Hb. pose proof (F2 b Hb) as E2. subst n2. apply (F3 b Hb).
Qed.

Lemma extends_is_dir root root' q :
  extends root root' -> is_dir (lookup q root) = true -> is_dir (lookup q root') = true.
Proof.
  intros E H. destruct (lookup q root) as [[b|b es]|] eqn:L; try discriminate.
  destruct (E q _ L) as (n' & L' & K & _). rewrite L'.
  destruct n'; [contradiction|reflexivity].
Qed.

Lemma find_entry_app_l x es l c :
  find_entry x es = Some c -> find_entry x (es ++ l) = Some c.
Proof.
  induction es as [|[k c0] es IH]; simpl; [discriminate|].
  destruct (k =? x); auto.
Qed.

Lemma find_entry_app_new e es n :
  find_entry e es = None -> find_entry e (es ++ [(e, n)]) = Some n.
Proof.
  induction es as [|[k c0] es IH]; simpl.
  - rewrite String.eqb_refl. reflexivity.
  - destruct (k =? e); [discriminate|auto].
Qed.

Lemma add_dir_put p e root b es :
  lookup p root = Some (Dir b es) ->
  add_dir p e root = put p (Dir b (es ++ [(e, Dir false [])])) root.
Proof.
  intros H. unfold add_dir.
  rewrite (alter_at _ (fun _ => Some (Dir b (es ++ [(e, Dir false [])]))) p root _ H)
    by reflexivity.
  rewrite alter_put. reflexivity.
Qed.

(** Creating a directory takes nothing away. *)
Lemma extends_add_dir p e root b es :
  lookup p root = Some (Dir b es) -> extends root (add_dir p e root).
Proof.
  intros Hp q n Hq. rewrite (add_dir_put p e root b es Hp).
  destruct (paths_compare p q)
    as [[r ->]|[[r ->]|(c & a & a' & p' & q' & Hne & -> & ->)]].
  - rewrite lookup_app, Hp in Hq. rewrite lookup_app, (lookup_put p _ root _ Hp).
    destruct r as [|x r]; simpl in *.
    + injection Hq as <-. eexists. split; [reflexivity|]. split; [reflexivity|].
      intros b0 Hb. discriminate.
    + destruct (find_entry x es) as [ch|] eqn:Hx; [|discriminate].
      rewrite (find_entry_app_l x es _ ch Hx). exists n.
      split; [assumption|]. split; [apply same_kind_refl|auto].
  - rewrite (lookup_put_prefix q r _ root n Hq).
    destruct r as [|x r].
    + rewrite app_nil_r in Hp. rewrite Hp in Hq. injection Hq as <-.
      eexists. split; [reflexivity|]. split; [reflexivity|]. intros b0 Hb. discriminate.
    + rewrite lookup_app, Hq in Hp. destruct n as [b0|b0 es0]; [discriminate|].
      eexists. split; [reflexivity|]. split; [reflexivity|]. intros b1 Hb. discriminate.
  - rewrite lookup_put_fork by assumption. exists n.
    split; [assumption|]. split; [apply same_kind_refl|auto].
Qed.

Lemma lookup_add_dir_new p e root b es :
  lookup p root = Some (Dir b es) -> find_entry e es = None ->
  lookup (p ++ [e]) (add_dir p e root) = Some (Dir false []).
Proof.
  intros Hp He. rewrite (add_dir_put p e root b es Hp).
  rewrite lookup_snoc, (lookup_put p _ root _ Hp).
  apply find_entry_app_new. assumption.
Qed.

Lemma mkdir_walk_extends es :
  forall root st, extends root (fst (mkdir_walk root st es)).
Proof.
  induction es as [|e es IH]; intros root st; simpl; [apply extends_refl|].
  destruct (lookup (rev st) root) as [[b|b es0]|] eqn:Hst; try apply extends_refl.
  destruct ((e =? "") || (e =? ".")); [apply IH|].
  destruct (e =? ".."); [apply IH|].
  destruct (lookup (rev st ++ [e]) root) as [[b1|b1 es1]|] eqn:He;
    [apply extends_refl|apply IH|].
  eapply extends_trans; [apply (extends_add_dir _ e root b es0 Hst)|apply IH].
Qed.

Lemma stat_walk_mono es :
  forall root root' st st',
    extends root root' ->
    stat_walk root st es = Some st' -> stat_walk root' st es = Some st'.
Proof.
  induction es as [|e es IH]; intros root root' st st' E; simpl; [auto|].
  destruct (is_dir (lookup (rev st) root)) eqn:Hd; [|discriminate].
  rewrite (extends_is_dir root root' _ E Hd).
  destruct ((e =? "") || (e =? ".")); [apply IH; assumption|].
  destruct (e =? ".."); [apply IH; assumption|].
  destruct (lookup (rev st ++ [e]) root) as [n|] eqn:He; [|discriminate].
  destruct (E _ _ He) as (n' & L' & _). rewrite L'. apply IH. assumption.
Qed.

(** After [os.MkdirAll] went through, the walk of the same path finds a
    directory. *)
Lemma mkdir_walk_then_stat es :
  forall root st root',
    mkdir_walk root st es = (root', None) ->
    is_dir (lookup (rev st) root) = true ->
    exists st', stat_walk root' st es = Some st'
                /\ is_dir (lookup (rev st') root') = true.
Proof.
  induction es as [|e es IH]; intros root st root' Hm Hd.
  - injection Hm as <-. exists st. auto.
  - pose proof (mkdir_walk_extends (e :: es) root st) as E. rewrite Hm in E.
    simpl in E. simpl in Hm |- *.
    rewrite (extends_is_dir root root' _ E Hd).
    destruct (lookup (rev st) root) as [[b|b es0]|] eqn:Hst; try discriminate.
    assert (Hd0 : is_dir (lookup (rev st) root) = true) by (rewrite Hst; reflexivity).
    destruct ((e =? "") || (e =? ".")); [apply (IH root st root' Hm Hd0)|].
    destruct (e =? "..").
    + apply (IH root (tl st) root' Hm).
      destruct st as [|x st]; [exact Hd0|].
      simpl in Hst. simpl. apply (is_dir_parent _ x root _ Hst).
    + destruct (lookup (rev st ++ [e]) root) as [[b1|b1 es1]|] eqn:He;
        [discriminate| |].
      * destruct (E _ _ He) as (n' & L' & _). rewrite L'.
        apply (IH root (e :: st) root' Hm). simpl. rewrite He. reflexivity.
      * assert (Hnew : find_entry e es0 = None)
          by (rewrite lookup_snoc, Hst in He; exact He).
        pose proof (lookup_add_dir_new _ e root b es0 Hst Hnew) as Ln.
        pose proof (mkdir_walk_extends es (add_dir (rev st) e root) (e :: st)) as E1.
        rewrite Hm in E1. simpl in E1.
        destruct (E1 _ _ Ln) as (n' & L' & _). rewrite L'.
        apply (IH _ (e :: st) root' Hm). simpl. rewrite Ln. reflexivity.
Qed.

Lemma os_MkdirAll_grows s w :
  extends (fs w) (fs (fst (os_MkdirAll s w)))
  /\ cwd (fst (os_MkdirAll s w)) = cwd w
  /\ trace (fst (os_MkdirAll s w)) = trace w
  /\ now (fst (os_MkdirAll s w)) = now w.
Proof.
  unfold os_MkdirAll. destruct (s =? ""); [simpl; auto using extends_refl|].
  pose proof (mkdir_walk_extends (elements s) (fs w) (walk_start w s)) as E.
  destruct (mkdir_walk (fs w) (walk_start w s) (elements s)) as [root [errno|]];
    simpl in *; auto.
Qed.

Lemma os_MkdirAll_then_Stat s w w' :
  os_MkdirAll s w = (w', None) -> exists n, os_Stat s w' = Ok n.
Proof.
  unfold os_MkdirAll, os_Stat. destruct (s =? ""); [discriminate|].
  destruct (mkdir_walk (fs w) (walk_start w s) (elements s)) as [root [errno|]] eqn:Hm;
    [discriminate|].
  intros [= <-]. cbn [fs set_fs]. change (walk_start (set_fs root w) s) with (walk_start w s).
  assert (Hd : is_dir (lookup (rev (walk_start w s)) (fs w)) = true).
  { pose proof (elements_nonempty s) as Hne.
    destruct (elements s) as [|e es]; [contradiction|]. simpl in Hm.
    destruct (lookup (rev (walk_start w s)) (fs w)) as [[b|b es0]|];
      (discriminate || reflexivity). }
  destruct (mkdir_walk_then_stat _ _ _ _ Hm Hd) as (st' & Hs & Hd').
  rewrite Hs. destruct (lookup (rev st') root) as [n|]; [eauto|discriminate].
Qed.

Lemma os_Stat_mono s w w' n :
  os_Stat s w = Ok n -> extends (fs w) (fs w') -> cwd w' = cwd w ->
  exists n', os_Stat s w' = Ok n' /\ same_kind n n' /\ (forall b, n = File b -> n' = n).
Proof.
  unfold os_Stat, walk_start. intros H E C. rewrite C.
  destruct (s =? ""); [discriminate|].
  destruct (stat_walk (fs w) _ (elements s)) as [st|] eqn:Hs; [|discriminate].
  rewrite (stat_walk_mono _ _ _ _ _ E Hs).
  destruct (lookup (rev st) (fs w)) as [m|] eqn:L; [|discriminate].
  injection H as ->. destruct (E _ _ L) as (n' & L' & K & F).
  rewrite L'. eauto.
Qed.

Lemma ensureEach_grows dirs :
  forall w,
    extends (fs w) (fs (fst (ensureEach dirs w)))
    /\ cwd (fst (ensureEach dirs w)) = cwd w
    /\ trace (fst (ensureEach dirs w)) = trace w
    /\ now (fst (ensureEach dirs w)) = now w.
Proof.
  induction dirs as [|s rest IH]; intros w; simpl; [auto using extends_refl|].
  destruct (os_Stat s w); [apply IH|].
  destruct (os_MkdirAll_grows s w) as (E & C & T & N).
  destruct (os_MkdirAll s w) as [w1 [err|]]; simpl in *; [auto|].
  destruct (IH w1) as (E1 & C1 & T1 & N1).
  split; [eapply extends_trans; eassumption|]. repeat split; congruence.
Qed.

Lemma ensureEach_ok dirs :
  forall w w',
    ensureEach dirs w = (w', None) ->
    Forall (fun s => exists n, os_Stat s w' = Ok n) dirs.
Proof.
  induction dirs as [|s rest IH]; intros w w' H; [constructor|].
  simpl in H. destruct (os_Stat s w) as [n|e] eqn:Hs.
  - constructor; [|apply (IH w w' H)].
    destruct (ensureEach_grows rest w) as (E & C & _). rewrite H in E, C.
    destruct (os_Stat_mono s w w' n Hs E C) as (n' & Hn' & _). eauto.
  - destruct (os_MkdirAll s w) as [w1 [err|]] eqn:Hm; [discriminate|].
    constructor; [|apply (IH w1 w' H)].
    destruct (os_MkdirAll_then_Stat s w w1 Hm) as [n Hn].
    destruct (ensureEach_grows rest w1) as (E & C & _). rewrite H in E, C.
    destruct (os_Stat_mono s w1 w' n Hn E C) as (n' & Hn' & _). eauto.
Qed.

Lemma ensureEach_nothing_to_do dirs w :
  Forall (fun s => exists n, os_Stat s w = Ok n) dirs -> ensureEach dirs w = (w, None).
Proof.
  induction 1 as [|s rest [n Hn] _ IH]; simpl; [reflexivity|].
  rewrite Hn. exact IH.
Qed.

(** X1: when [createMissingDirectories] returns, that is, does not end
    the process, each of the data, index and repo directories is there:
    [os.Stat] succeeds on all three. *)
Theorem createMissingDirectories_all_present :
  forall o w w',
    createMissingDirectories o w = (w', None) ->
    (exists n, os_Stat (dataDir o) w' = Ok n)
    /\ (exists n, os_Stat (indexDir o) w' = Ok n)
    /\ (exists n, os_Stat (repoDir o) w' = Ok n).
Proof.
  intros o w w' H. apply ensureEach_ok in H.
  inversion H as [|? ? H1 H']; subst. inversion H' as [|? ? H2 H'']; subst.
  inversion H'' as [|? ? H3 _]; subst. auto.
Qed.

Lemma createMissingDirectories_all_present_witness :
  exists n, os_Stat "/data/repos" (fst (createMissingDirectories default_opts
                                          (bare_world all_succeed))) = Ok n.
Proof.
  destruct (createMissingDirectories_all_present default_opts (bare_world all_succeed)
              (fst (createMissingDirectories default_opts (bare_world all_succeed))))
    as (_ & _ & H).
  - vm_compute. reflexivity.
  - exact H.
Defined.

(** X2: [createMissingDirectories] takes nothing away, whether it
    returns or ends the process: every object of the tree is still at its
    path, a regular file exactly as it was, a directory still a
    directory; and it writes nothing to the trace. *)
Theorem createMissingDirectories_keeps_everything :
  forall o w q n,
    lookup q (fs w) = Some n ->
    let w' := fst (createMissingDirectories o w) in
    (exists n', lookup q (fs w') = Some n'
                /\ same_kind n n'
                /\ (forall b, n = File b -> n' = n))
    /\ trace w' = trace w.
Proof.
  intros o w q n H. cbv zeta. unfold createMissingDirectories.
  destruct (ensureEach_grows [dataDir o; indexDir o; repoDir o] w) as (E & _ & T & _).
  split; [apply (E q n H)|exact T].
Qed.

Lemma createMissingDirectories_keeps_everything_witness :
  exists n',
    lookup ["data"; "repos"; "c"; "d"]
      (fs (fst (createMissingDirectories
                  (mkOptions 0 "/data/new" "/data/index/x/y" "/data/repos/c/z" "")
                  sample_world))) = Some n'
    /\ n' = File false.
Proof.
  destruct (createMissingDirectories_keeps_everything
              (mkOptions 0 "/data/new" "/data/index/x/y" "/data/repos/c/z" "")
              sample_world ["data"; "repos"; "c"; "d"] (File false) eq_refl)
    as [(n' & L & _ & F) _].
  exists n'. split; [exact L|]. apply (F false). reflexivity.
Defined.

(** X3: [createMissingDirectories] is idempotent: run again right after
    a run that returned, it returns as well and leaves the world as it
    is. *)
Theorem createMissingDirectories_idempotent :
  forall o w w',
    createMissingDirectories o w = (w', None) ->
    createMissingDirectories o w' = (w', None).
Proof.
  intros o w w' H. apply ensureEach_nothing_to_do. apply (ensureEach_ok _ w w' H).
Qed.

Lemma createMissingDirectories_idempotent_witness :
  let w' := fst (createMissingDirectories default_opts (bare_world all_succeed)) in
  createMissingDirectories default_opts w' = (w', None).
Proof.
  cbv zeta. apply (createMissingDirectories_idempotent default_opts (bare_world all_succeed)).
  vm_compute. reflexivity.
Defined.

(** X4: [createMissingDirectories] only asks whether a path exists, not
    whether it is a directory.  When the repo directory path is a regular
    file, startup leaves the file as it is and can still return; every
    /truncate afterwards answers 500 for the repo directory and changes
    nothing. *)
Theorem regular_file_as_repo_dir_survives_startup :
  forall o w w' b r,
    os_Stat (repoDir o) w = Ok (File b) ->
    Forall (fun e => is_name e = true) (cwd w) ->
    createMissingDirectories o w = (w', None) ->
    os_Stat (repoDir o) w' = Ok (File b)
    /\ statusCode (snd (serveTruncate o newResponseWriter r w')) = 500%Z
    /\ written (snd (serveTruncate o newResponseWriter r w'))
       = ("Failed to delete repoDir" ++ LF)%string
    /\ fs (fst (serveTruncate o newResponseWriter r w')) = fs w'.
Proof.
  intros o w w' b r Hs Hc H.
  destruct (ensureEach_grows [dataDir o; indexDir o; repoDir o] w) as (E & C & _).
  unfold createMissingDirectories in H. rewrite H in E, C. simpl in E, C.
  destruct (os_Stat_mono _ w w' _ Hs E C) as (n' & Hn' & _ & F).
  rewrite (F b eq_refl) in Hn'. split; [exact Hn'|].
  destruct (emptyDirectory_unlisted w' (repoDir o)) as (Hfs & _ & _ & Herr);
    [intros b' es'; rewrite Hn'; discriminate|].
  unfold serveTruncate.
  destruct (emptyDirectory (repoDir o) w') as [w1 e1]. simpl in Hfs, Herr. subst e1.
  simpl. auto.
Qed.

Lemma regular_file_as_repo_dir_survives_startup_witness :
  let o := mkOptions 0 "/data" "/data/index" "/data/repos/a" "" in
  statusCode (snd (serveTruncate o newResponseWriter (post "/truncate" (Malformed ErrEOF))
                     (fst (createMissingDirectories o sample_world)))) = 500%Z.
Proof.
  cbv zeta.
  destruct (regular_file_as_repo_dir_survives_startup
              (mkOptions 0 "/data" "/data/index" "/data/repos/a" "") sample_world
              (fst (createMissingDirectories
                      (mkOptions 0 "/data" "/data/index" "/data/repos/a" "") sample_world))
              false (post "/truncate" (Malformed ErrEOF)))
    as (_ & H & _).
  - vm_compute. reflexivity.
  - repeat constructor.
  - vm_compute. reflexivity.
  - exact H.
Defined.

(* ================================================================= *)
(** * Options *)

Lemma apart_siblings (pd : list string) a a' : a <> a' -> apart (pd ++ [a]) (pd ++ [a']).
Proof. intros H. exists pd, a, a', [], []. auto. Qed.

Lemma apart_not_prefix p q r : apart p q -> p <> q ++ r.
Proof.
  intros (c & a & a' & p' & q' & Hne & -> & ->) H.
  rewrite <- app_assoc in H. apply app_inv_head in H. simpl in H. congruence.
Qed.

Lemma apart_sym p q : apart p q -> apart q p.
Proof.
  intros (c & a & a' & p' & q' & Hne & -> & ->). exists c, a', a, q', p'. auto.
Qed.

(** X5: the directories [parseOptions] derives.  The repo directory is
    always the entry [repos] of the data directory; without [-index_dir]
    the index directory is its entry [index], so the two are siblings
    and neither lies inside the other; with [-index_dir] the index
    directory is whatever was given. *)
Theorem parseOptions_layout :
  forall data_dir index_dir timeout listen_addr opts w,
    parseOptions data_dir index_dir timeout listen_addr = Some opts ->
    exists pd,
      resolve w (dataDir opts) = Some pd
      /\ resolve w (repoDir opts) = Some (pd ++ ["repos"])
      /\ (index_dir = "" ->
          resolve w (indexDir opts) = Some (pd ++ ["index"])
          /\ ~ inside w (repoDir opts) (indexDir opts)
          /\ ~ inside w (indexDir opts) (repoDir opts))
      /\ (index_dir <> "" -> indexDir opts = index_dir).
Proof.
  intros data_dir index_dir timeout listen_addr opts w H.
  unfold parseOptions in H.
  destruct (String.eqb_spec data_dir "") as [|Hd]; [discriminate|].
  injection H as <-. cbn [dataDir repoDir indexDir].
  assert (Hr : exists pd, resolve w data_dir = Some pd).
  { unfold resolve. apply String.eqb_neq in Hd. rewrite Hd.
    destruct (filepath_IsAbs data_dir); eauto. }
  destruct Hr as [pd Hpd]. exists pd. split; [exact Hpd|].
  assert (Hrepos : resolve w (filepath_Join [data_dir; "repos"]) = Some (pd ++ ["repos"]))
    by (rewrite resolve_Join, Hpd by (assumption || reflexivity); reflexivity).
  split; [exact Hrepos|]. split.
  - intros ->. rewrite String.eqb_refl.
    assert (Hindex : resolve w (filepath_Join [data_dir; "index"]) = Some (pd ++ ["index"]))
      by (rewrite resolve_Join, Hpd by (assumption || reflexivity); reflexivity).
    split; [exact Hindex|]. split.
    + intros (pa & pb & q & Ha & Hb & _ & Heq).
      rewrite Hrepos in Ha. rewrite Hindex in Hb.
      injection Ha as <-. injection Hb as <-.
      apply (apart_not_prefix _ _ q (apart_siblings pd "repos" "index" ltac:(discriminate))).
      exact Heq.
    + intros (pa & pb & q & Ha & Hb & _ & Heq).
      rewrite Hindex in Ha. rewrite Hrepos in Hb.
      injection Ha as <-. injection Hb as <-.
      apply (apart_not_prefix _ _ q (apart_siblings pd "index" "repos" ltac:(discriminate))).
      exact Heq.
  - intros Hi. apply String.eqb_neq in Hi. rewrite Hi. reflexivity.
Qed.

Lemma parseOptions_layout_witness :
  resolve sample_world (repoDir relative_opts) = Some ["srv"; "data"; "repos"]
  /\ ~ inside sample_world (repoDir relative_opts) (indexDir relative_opts).
Proof.
  destruct (parseOptions_layout "data" "" 3600000000000 ":6060" relative_opts
              sample_world eq_refl) as (pd & Hd & Hr & Hi & _).
  vm_compute in Hd. injection Hd as <-.
  destruct (Hi eq_refl) as (_ & Hn & _).
  split; [exact Hr|exact Hn].
Defined.

(** X6: with an absolute [-data_dir] the repository path always
    resolves, whatever has become of the working directory: for the
    options [parseOptions] builds, [indexRepository] runs all three
    stages against [repoDir/RepoID.git] and leaves the response alone
    (200), for every request. *)
Theorem absolute_data_dir_never_fails_path :
  forall data_dir index_dir timeout listen_addr opts req rw w,
    parseOptions data_dir index_dir timeout listen_addr = Some opts ->
    filepath_IsAbs data_dir = true ->
    filepath_Abs (repo_path opts req) w = Ok (repo_path opts req)
    /\ cmdHistory (trace (fst (indexRepository opts req rw w)))
       = cmdHistory (trace w)
         ++ [clone_argv opts req; fetch_argv (repo_path opts req);
             index_argv opts (repo_path opts req)]
    /\ snd (indexRepository opts req rw w) = rw.
Proof.
  intros data_dir index_dir timeout listen_addr opts req rw w H Habs.
  unfold parseOptions in H.
  destruct (data_dir =? ""); [discriminate|]. injection H as <-.
  set (opts := mkOptions _ _ _ _ _).
  assert (Hrepo : filepath_IsAbs (repoDir opts) = true)
    by (apply (Join_absolute data_dir "repos" Habs)).
  assert (Hp : filepath_Abs (repo_path opts req) w = Ok (repo_path opts req)).
  { destruct (Join_absolute (repoDir opts) (fmt_Sprintf_d_git (RepoID req)) Hrepo)
      as [Hj Hc].
    unfold repo_path. rewrite filepath_Abs_absolute by assumption.
    rewrite Hc. reflexivity. }
  split; [exact Hp|]. split.
  - apply (indexRepository_history_ok opts req rw w _ Hp).
  - rewrite indexRepository_response, Hp. reflexivity.
Qed.

Lemma absolute_data_dir_never_fails_path_witness :
  snd (indexRepository default_opts test_req newResponseWriter
         (mkWorld (Dir false []) ["gone"] 0 no_programs []))
  = newResponseWriter.
Proof.
  destruct (absolute_data_dir_never_fails_path "/data" "" 3600000000000 ":6060"
              default_opts test_req newResponseWriter
              (mkWorld (Dir false []) ["gone"] 0 no_programs []) eq_refl eq_refl)
    as (_ & _ & H).
  exact H.
Defined.

(* ================================================================= *)
(** * Decoding requests *)

Lemma parse_digits_FormatUint n : parse_digits (strconv_FormatUint n) 0 = Some n.
Proof.
  unfold strconv_FormatUint, NilZero.string_of_uint.
  destruct (N.to_uint n) eqn:E;
    [destruct n; [discriminate|];
     exfalso; apply (DecimalPos.Unsigned.to_uint_nonnil p); exact E|..];
    cbv iota; rewrite parse_digits_numeral, <- E, DecimalN.Unsigned.of_to;
    reflexivity.
Qed.

Lemma ParseUint32_bound lit n : strconv_ParseUint32 lit = Some n -> is_uint32 n.
Proof.
  unfold strconv_ParseUint32, is_uint32. destruct (lit =? ""); [discriminate|].
  destruct (parse_digits lit 0) as [m|]; [|discriminate].
  destruct (m <? 2 ^ 32)%N eqn:Hm; [|discriminate].
  intros [= <-]. apply N.ltb_lt. exact Hm.
Qed.

Lemma ParseUint32_too_large n :
  (2 ^ 32 <= n)%N -> strconv_ParseUint32 (strconv_FormatUint n) = None.
Proof.
  intros Hn. unfold strconv_ParseUint32.
  destruct (strconv_FormatUint n =? ""); [reflexivity|].
  rewrite parse_digits_FormatUint.
  apply N.ltb_ge in Hn. rewrite Hn. reflexivity.
Qed.

Lemma store_uint32 f v req req' :
  store f v req = Ok req' -> is_uint32 (RepoID req) -> is_uint32 (RepoID req').
Proof.
  destruct f, v; simpl; try discriminate; try (intros [= <-]; auto; fail).
  destruct (strconv_ParseUint32 literal) as [n|] eqn:Hn; [|discriminate].
  intros [= <-] _. apply (ParseUint32_bound literal n Hn).
Qed.

Lemma decode_members_uint32 ms :
  forall req req',
    decode_members ms req = Ok req' -> is_uint32 (RepoID req) -> is_uint32 (RepoID req').
Proof.
  induction ms as [|[k v] ms IH]; intros req req'; simpl.
  - intros [= <-]. auto.
  - destruct (find_field k) as [f|]; [|discriminate].
    destruct (store f v req) as [req1|e] eqn:Hs; [|discriminate].
    intros H Hreq. apply (IH req1 req' H). apply (store_uint32 f v req req1 Hs Hreq).
Qed.

(** X7: whatever body is sent, a request that comes out of the strict
    decoder carries a [RepoID] below 2^32: the pipeline never sees a
    value outside [uint32]. *)
Theorem decoded_RepoID_is_uint32 :
  forall body req,
    json_Decode body (mkIndexRequest "" 0) = Ok req -> is_uint32 (RepoID req).
Proof.
  intros body req H. destruct body as [e|v]; [discriminate|].
  destruct v; simpl in H; try discriminate.
  - injection H as <-. reflexivity.
  - apply (decode_members_uint32 members _ req H). reflexivity.
Qed.

Lemma decoded_RepoID_is_uint32_witness : is_uint32 (RepoID test_req).
Proof. apply (decoded_RepoID_is_uint32 test_body test_req). reflexivity. Defined.

(** X8: decoding reads back what the program prints.  For every clone
    URL and every [RepoID] below 2^32, the body with the URL as a string
    and the [RepoID] as the numeral [strconv.FormatUint] writes decodes
    to exactly that request, in either order of the two members. *)
Theorem request_round_trip :
  forall url id,
    is_uint32 id ->
    json_Decode (Value (JObject [("CloneURL", JString url);
                                 ("RepoID", JNumber (strconv_FormatUint id))]))
      (mkIndexRequest "" 0)
    = Ok (mkIndexRequest url id)
    /\ json_Decode (Value (JObject [("RepoID", JNumber (strconv_FormatUint id));
                                    ("CloneURL", JString url)]))
         (mkIndexRequest "" 0)
       = Ok (mkIndexRequest url id).
Proof.
  intros url id Hid. simpl. rewrite (ParseUint32_FormatUint id Hid). auto.
Qed.

Lemma request_round_trip_witness :
  json_Decode (Value (JObject [("CloneURL", JString "u");
                               ("RepoID", JNumber (strconv_FormatUint 4294967295))]))
    (mkIndexRequest "" 0)
  = Ok (mkIndexRequest "u" 4294967295).
Proof. apply (request_round_trip "u" 4294967295%N). reflexivity. Defined.

Lemma decode_members_bad_value ms :
  forall req key v f e,
    In (key, v) ms -> find_field key = Some f ->
    store f v (mkIndexRequest "" 0) = Err e ->
    exists e', decode_members ms req = Err e'.
Proof.
  induction ms as [|[k v0] ms IH]; intros req key v f e Hin Hf Hs; [contradiction|].
  simpl. destruct (find_field k) as [f0|] eqn:Hk; [|eauto].
  destruct (store f0 v0 req) as [req1|e0] eqn:Hs0; [|eauto].
  destruct Hin as [Heq|Hin]; [|apply (IH req1 key v f e Hin Hf Hs)].
  injection Heq as -> ->. rewrite Hf in Hk. injection Hk as <-.
  rewrite (store_error_any_request f v _ e Hs req) in Hs0. discriminate.
Qed.

(** X9: values the struct cannot hold are refused.  A body whose object
    has, anywhere, a [RepoID] written as a numeral of 2^32 or more, a
    [RepoID] given as a string, or a [CloneURL] given as a number gets
    400 with "JSON parser error", and no pipeline stage is invoked. *)
Theorem unfit_values_are_rejected :
  forall opts r w ms key v,
    RequestBody r = Value (JObject ms) ->
    In (key, v) ms ->
    (key = "RepoID"
     /\ ((exists id, (2 ^ 32 <= id)%N /\ v = JNumber (strconv_FormatUint id))
         \/ (exists s, v = JString s)))
    \/ (key = "CloneURL" /\ exists lit, v = JNumber lit) ->
    let res := serveIndex opts newResponseWriter r w in
    statusCode (snd res) = 400%Z
    /\ written (snd res) = ("JSON parser error" ++ LF)%string
    /\ cmdHistory (trace (fst res)) = cmdHistory (trace w)
    /\ spawned (trace (fst res)) = spawned (trace w).
Proof.
  intros opts r w ms key v Hb Hin Hbad. cbv zeta.
  assert (He : exists f e, find_field key = Some f
                           /\ store f v (mkIndexRequest "" 0) = Err e).
  { destruct Hbad as [[-> [(id & Hid & ->)|(s & ->)]]|[-> (lit & ->)]].
    - exists FRepoID. eexists. split; [reflexivity|]. simpl.
      rewrite (ParseUint32_too_large id Hid). reflexivity.
    - exists FRepoID. eexists. split; reflexivity.
    - exists FCloneURL. eexists. split; reflexivity. }
  destruct He as (f & e & Hf & Hs).
  destruct (decode_members_bad_value ms (mkIndexRequest "" 0) key v f e Hin Hf Hs)
    as [e' He'].
  rewrite (serveIndex_decode_error opts _ r w e') by (rewrite Hb; exact He').
  unfold log_Printf, emit. simpl.
  rewrite cmdHistory_app, spawned_app. simpl. rewrite !app_nil_r. auto.
Qed.

Lemma unfit_values_are_rejected_witness :
  statusCode
    (snd (serveIndex test_opts newResponseWriter
            (post "/index"
               (Value (JObject [("CloneURL", JString "u");
                                ("RepoID", JNumber (strconv_FormatUint 4294967296))])))
            (bare_world all_succeed))) = 400%Z.
Proof.
  destruct (unfit_values_are_rejected test_opts
              (post "/index"
                 (Value (JObject [("CloneURL", JString "u");
                                  ("RepoID", JNumber (strconv_FormatUint 4294967296))])))
              (bare_world all_succeed)
              [("CloneURL", JString "u");
               ("RepoID", JNumber (strconv_FormatUint 4294967296))]
              "RepoID" (JNumber (strconv_FormatUint 4294967296)))
    as (H & _).
  - reflexivity.
  - right. left. reflexivity.
  - left. split; [reflexivity|]. left. exists 4294967296%N.
    split; [discriminate|reflexivity].
  - exact H.
Defined.

(* ================================================================= *)
(** * More about [emptyDirectory] *)


(** [emptyDirectory] changes nothing on a path that parts from the
    directory's own. *)
Lemma emptyDirectory_frame w dir d q :
  resolve w dir = Some d -> well_named w dir -> apart d q ->
  lookup q (fs (fst (emptyDirectory dir w))) = lookup q (fs w)
  /\ cwd (fst (emptyDirectory dir w)) = cwd w.
Proof.
  intros Hd Hw (c & a & a' & p' & q' & Hne & -> & ->).
  destruct (emptyDirectory_inside w dir _ Hd Hw) as (C & [F|(b & es & es' & L & F & _)]);
    rewrite F; split; try assumption; [reflexivity|].
  apply lookup_put_fork. assumption.
Qed.

(** X10: [emptyDirectory] stays inside its directory.  Whatever the
    outcome, nothing on a path that parts from the directory's path is
    changed; the directory itself is kept, and every entry left in it was
    there before, untouched or as what was left of a child that could not
    be removed; when the path is not a directory the tree is not changed
    at all. *)
Theorem emptyDirectory_stays_inside :
  forall w dir d,
    resolve w dir = Some d -> well_named w dir ->
    let w' := fst (emptyDirectory dir w) in
    (forall q, apart d q -> lookup q (fs w') = lookup q (fs w))
    /\ (forall b es,
           lookup d (fs w) = Some (Dir b es) ->
           exists es',
             lookup d (fs w') = Some (Dir b es')
             /\ forall name c', In (name, c') es' ->
                  exists c, In (name, c) es /\ (c' = c \/ purge c = Some c'))
    /\ ((forall b es, lookup d (fs w) <> Some (Dir b es)) -> fs w' = fs w).
Proof.
  intros w dir d Hd Hw. cbv zeta. split; [|split].
  - intros q Hq. apply (emptyDirectory_frame w dir d q Hd Hw Hq).
  - intros b es Hl.
    destruct (emptyDirectory_inside w dir d Hd Hw)
      as (_ & [F|(b0 & es0 & es' & L & F & O)]); rewrite F.
    + exists es. split; [exact Hl|]. eauto.
    + rewrite Hl in L. injection L as <- <-.
      exists es'. split; [apply (lookup_put d _ (fs w) _ Hl)|exact O].
  - intros Hnot.
    destruct (emptyDirectory_inside w dir d Hd Hw)
      as (_ & [F|(b0 & es0 & es' & L & _)]); [exact F|].
    exfalso. apply (Hnot b0 es0). exact L.
Qed.

Lemma well_named_pinned_repos : well_named pinned_world "/data/repos".
Proof.
  intros b es Hn. vm_compute in Hn. injection Hn as <- <-.
  split; [repeat constructor|].
  repeat (constructor; [simpl; intuition discriminate|]). constructor.
Qed.

Lemma emptyDirectory_stays_inside_witness :
  lookup ["data"; "index"; "shard0"] (fs (fst (emptyDirectory "/data/repos" pinned_world)))
  = Some (File false).
Proof.
  destruct (emptyDirectory_stays_inside pinned_world "/data/repos" ["data"; "repos"]
              eq_refl well_named_pinned_repos) as (H & _).
  rewrite (H ["data"; "index"; "shard0"]); [reflexivity|].
  exists ["data"], "repos", "index", [], ["shard0"].
  split; [discriminate|split; reflexivity].
Defined.



(** The loop of [emptyDirectory], call by call: a call that returns an
    error is the last one, and its error is the loop's. *)
Lemma removeEach_calls dir files :
  forall w,
    exists attempted rest,
      files = attempted ++ rest
      /\ trace (fst (removeEach dir files w)) = trace w ++ removals dir attempted
      /\ fst (removeEach dir files w) = after_removals dir attempted w
      /\ (forall pre f later,
             attempted = pre ++ f :: later ->
             snd (os_RemoveAll (filepath_Join [dir; f]) (after_removals dir pre w))
             = match later with
               | [] => snd (removeEach dir files w)
               | _ :: _ => None
               end)
      /\ (rest <> [] -> attempted <> [] /\ snd (removeEach dir files w) <> None)
      /\ (attempted = [] -> snd (removeEach dir files w) = None).
Proof.
  induction files as [|f rest IH]; intros w.
  - exists [], []. simpl. rewrite app_nil_r. repeat split; try congruence.
    intros pre f later H. destruct pre; discriminate.
  - simpl. destruct (os_RemoveAll_trace (filepath_Join [dir; f]) w) as (T & _).
    destruct (os_RemoveAll (filepath_Join [dir; f]) w) as [w1 [e|]] eqn:Hr;
      simpl in T.
    + exists [f], rest. simpl. rewrite Hr. repeat split; try congruence.
      intros pre f0 later H. destruct pre as [|x pre].
      * injection H as <- <-. simpl. rewrite Hr. reflexivity.
      * destruct pre; discriminate.
    + destruct (IH w1) as (att & rst & -> & Ht & Hw & Hc & Hrest & Hnil).
      exists (f :: att), rst. simpl. rewrite Hr. simpl.
      split; [reflexivity|]. split; [rewrite Ht, T, <- app_assoc; reflexivity|].
      split; [exact Hw|]. split; [|split].
      * intros pre f0 later H. destruct pre as [|x pre].
        -- injection H as <- <-. simpl. rewrite Hr. simpl.
           destruct att as [|y att]; [|reflexivity].
           symmetry. apply Hnil. reflexivity.
        -- injection H as <- H. simpl. rewrite Hr. simpl. apply (Hc pre f0 later H).
      * intros Hne. destruct (Hrest Hne) as [_ H]. split; [discriminate|exact H].
      * discriminate.
Qed.

Lemma insert_name_sorted x l : sorted_names l -> sorted_names (insert_name x l).
Proof.
  induction l as [|y l IH]; simpl; [auto|].
  intros [Hy Hl]. destruct (String.leb x y) eqn:Hxy; [simpl; auto|].
  assert (Hyx : String.leb y x = true)
    by (destruct (String.leb_total x y); congruence).
  simpl. split; [|apply IH; assumption].
  destruct l as [|z l]; simpl; [assumption|].
  destruct (String.leb x z); assumption.
Qed.

Lemma sort_names_sorted l : sorted_names (sort_names l).
Proof.
  induction l as [|x l IH]; simpl; [exact I|]. apply insert_name_sorted. exact IH.
Qed.

(** X12: the file-system calls of [emptyDirectory] on a directory: one
    listing, then one [os.RemoveAll] per child on the child's joined
    path, in ascending file-name order.  Every call but the last returns
    no error and the loop goes on; the last call's result is what
    [emptyDirectory] returns: the loop stops at the first call that
    fails, and only there.  A child is left without its call only after
    a call that failed.  Nothing else is written to the trace, and the
    world is left as the calls left it. *)
Theorem emptyDirectory_calls_in_name_order :
  forall w dir b es,
    os_Stat dir w = Ok (Dir b es) ->
    let files := sort_names (map fst es) in
    let w0 := emit (ReadDir dir) w in
    sorted_names files
    /\ Permutation files (map fst es)
    /\ exists attempted rest,
        files = attempted ++ rest
        /\ trace (fst (emptyDirectory dir w))
           = trace w ++ ReadDir dir :: removals dir attempted
        /\ fst (emptyDirectory dir w) = after_removals dir attempted w0
        /\ (forall pre f later,
               attempted = pre ++ f :: later ->
               snd (os_RemoveAll (filepath_Join [dir; f]) (after_removals dir pre w0))
               = match later with
                 | [] => snd (emptyDirectory dir w)
                 | _ :: _ => None
                 end)
        /\ (rest <> [] -> attempted <> [] /\ snd (emptyDirectory dir w) <> None)
        /\ (attempted = [] -> snd (emptyDirectory dir w) = None).
Proof.
  intros w dir b es Hs. cbv zeta.
  split; [apply sort_names_sorted|]. split; [apply sort_names_perm|].
  unfold emptyDirectory, ioutil_ReadDir. cbv zeta.
  change (os_Stat dir (emit (ReadDir dir) w)) with (os_Stat dir w). rewrite Hs.
  destruct (removeEach_calls dir (sort_names (map fst es)) (emit (ReadDir dir) w))
    as (att & rst & Hf & T & Hw & Hc & Hrest & Hnil).
  exists att, rst. split; [exact Hf|]. split; [|auto].
  rewrite T. unfold emit. simpl. rewrite <- app_assoc. reflexivity.
Qed.

Lemma emptyDirectory_calls_in_name_order_witness :
  trace (fst (emptyDirectory "/data/repos" pinned_world))
  = [ReadDir "/data/repos"; RemoveAll "/data/repos/a"; RemoveAll "/data/repos/b"]
  /\ snd (os_RemoveAll "/data/repos/b"
            (after_removals "/data/repos" ["a"] (emit (ReadDir "/data/repos") pinned_world)))
     = snd (emptyDirectory "/data/repos" pinned_world).
Proof.
  destruct (emptyDirectory_calls_in_name_order pinned_world "/data/repos" false
              [("a", File false); ("b", File true);
               ("c", Dir false [("d", File false)])] eq_refl)
    as (_ & _ & att & rst & Hf & T & W & C & R & N).
  assert (Ha : att = ["a"; "b"]).
  { assert (Hl : length (trace (fst (emptyDirectory "/data/repos" pinned_world))) = 3)
      by (vm_compute; reflexivity).
    rewrite T in Hl. simpl in Hl. unfold removals in Hl. rewrite length_map in Hl.
    simpl in Hf. destruct att as [|x [|y [|z att]]]; simpl in Hl; try discriminate.
    injection Hf as <- <- _. reflexivity. }
  subst att. split; [exact T|].
  apply (C ["a"] "b" []). reflexivity.
Defined.

(* ================================================================= *)
(** * What each handler leaves alone *)

Lemma removals_views dir l :
  cmdHistory (removals dir l) = []
  /\ spawned (removals dir l) = []
  /\ logged (removals dir l) = [].
Proof. induction l as [|f l IH]; simpl; auto. Qed.

Lemma executeCmd_no_fsCalls ctx name arg w :
  fsCalls (trace (executeCmd ctx name arg w)) = fsCalls (trace w).
Proof. exec_cases; reflexivity. Qed.

(** X13: the two handlers keep to their own means.  /truncate issues no
    command and starts no process; /index makes no directory listing and
    no removal of its own. *)
Theorem handlers_keep_to_their_means :
  forall opts rw r w,
    (let w' := fst (serveTruncate opts rw r w) in
     cmdHistory (trace w') = cmdHistory (trace w)
     /\ spawned (trace w') = spawned (trace w))
    /\ fsCalls (trace (fst (serveIndex opts rw r w))) = fsCalls (trace w).
Proof.
  intros opts rw r w. split.
  - cbv zeta. unfold serveTruncate.
    destruct (emptyDirectory_trace (repoDir opts) w) as (a1 & T1 & N1).
    destruct (emptyDirectory (repoDir opts) w) as [w1 [e1|]]; cbn [fst snd] in *.
    + unfold log_Printf, emit. cbn [trace]. rewrite T1.
      destruct (removals_views (repoDir opts) a1) as (H1 & H2 & _).
      rewrite !cmdHistory_app, !spawned_app. simpl. rewrite H1, H2, !app_nil_r. auto.
    + destruct (emptyDirectory_trace (indexDir opts) w1) as (a2 & T2 & N2).
      destruct (removals_views (repoDir opts) a1) as (H1 & H2 & _).
      destruct (removals_views (indexDir opts) a2) as (H3 & H4 & _).
      destruct (emptyDirectory (indexDir opts) w1) as [w2 [e2|]]; cbn [fst snd] in *;
        unfold log_Printf, emit; cbn [trace]; rewrite T2, T1;
        rewrite !cmdHistory_app, !spawned_app; simpl;
        rewrite H1, H2, H3, H4, !app_nil_r; repeat split; congruence.
  - unfold serveIndex.
    destruct (json_Decode (RequestBody r) (mkIndexRequest "" 0)) as [req|e].
    + rewrite indexRepository_unfold. cbv zeta.
      destruct (filepath_Abs (repo_path opts req) w); cbn [fst];
        unfold log_Printf, emit; cbn [trace];
        rewrite ?fsCalls_app, !executeCmd_no_fsCalls; simpl;
        rewrite ?app_nil_r; reflexivity.
    + unfold log_Printf, emit. simpl. rewrite fsCalls_app. simpl.
      apply app_nil_r.
Qed.

(** X14: /truncate touches only the two managed directories.  When the
    repo and index directories lie apart, an object on a path that parts
    from both is after /truncate exactly what it was before, whether the
    request succeeds or fails. *)
Theorem truncate_touches_only_managed_directories :
  forall opts rw r w pr pi q,
    resolve w (repoDir opts) = Some pr ->
    resolve w (indexDir opts) = Some pi ->
    well_named w (repoDir opts) -> well_named w (indexDir opts) ->
    apart pr pi -> apart pr q -> apart pi q ->
    lookup q (fs (fst (serveTruncate opts rw r w))) = lookup q (fs w).
Proof.
  intros opts rw r w pr pi q Rr Ri Wr Wi Hri Hrq Hiq.
  destruct (emptyDirectory_frame w (repoDir opts) pr q Rr Wr Hrq) as [F1 C1].
  destruct (emptyDirectory_frame w (repoDir opts) pr pi Rr Wr Hri) as [Fi _].
  unfold serveTruncate.
  destruct (emptyDirectory (repoDir opts) w) as [w1 [e1|]]; cbn [fst snd] in *;
    [exact F1|].
  assert (Ri1 : resolve w1 (indexDir opts) = Some pi)
    by (rewrite (resolve_ext w w1 _ C1); exact Ri).
  assert (Wi1 : well_named w1 (indexDir opts)).
  { intros b es Hn. apply (Wi b es). unfold node_at in *.
    rewrite Ri1 in Hn. rewrite Ri, <- Fi. exact Hn. }
  destruct (emptyDirectory_frame w1 (indexDir opts) pi q Ri1 Wi1 Hiq) as [F2 _].
  destruct (emptyDirectory (indexDir opts) w1) as [w2 [e2|]]; cbn [fst snd] in *;
    unfold log_Printf, emit; cbn [fs]; congruence.
Qed.

Lemma well_named_sample (dir : string) :
  dir = "/data/repos" \/ dir = "/data/index" -> well_named sample_world dir.
Proof.
  intros [->| ->]; intros b es Hn; vm_compute in Hn; injection Hn as <- <-;
    (split; [repeat constructor|]);
    repeat (constructor; [simpl; intuition discriminate|]); constructor.
Qed.

Lemma truncate_touches_only_managed_directories_witness :
  lookup ["srv"]
    (fs (fst (serveTruncate default_opts newResponseWriter
                (post "/truncate" (Malformed ErrEOF)) sample_world)))
  = Some (Dir false []).
Proof.
  rewrite (truncate_touches_only_managed_directories default_opts newResponseWriter
             (post "/truncate" (Malformed ErrEOF)) sample_world
             ["data"; "repos"] ["data"; "index"] ["srv"] eq_refl eq_refl
             (well_named_sample _ (or_introl eq_refl))
             (well_named_sample _ (or_intror eq_refl))).
  - reflexivity.
  - exists ["data"], "repos", "index", [], []. split; [discriminate|auto].
  - exists [], "data", "srv", ["repos"], []. split; [discriminate|auto].
  - exists [], "data", "srv", ["index"], []. split; [discriminate|auto].
Defined.

(* ================================================================= *)
(** * Running one command *)

(** X15: what [loggedRun] logs and returns.  Its log shows the "run"
    line alone, with no failure line after it, exactly when the program
    was started before the deadline of its context and exited with
    status 0 before that deadline; in that case it returns what the
    process wrote to stdout and stderr, and the clock has advanced by the
    time the process ran. *)
Theorem loggedRun_quiet_iff_clean_exit :
  forall cmd w,
    (logged (trace (fst (loggedRun cmd w))) = logged (trace w) ++ [LogRun (Args cmd)]
     <-> exists out errout elapsed,
          spawn w (Args cmd) = Exited 0 out errout elapsed
          /\ (now w < deadline (Ctx cmd))%Z
          /\ (now w + Z.max 0 elapsed < deadline (Ctx cmd))%Z)
    /\ (forall out errout elapsed,
           spawn w (Args cmd) = Exited 0 out errout elapsed ->
           (now w < deadline (Ctx cmd))%Z ->
           (now w + Z.max 0 elapsed < deadline (Ctx cmd))%Z ->
           snd (loggedRun cmd w) = (out, errout)
           /\ now (fst (loggedRun cmd w)) = (now w + Z.max 0 elapsed)%Z
           /\ spawned (trace (fst (loggedRun cmd w)))
              = spawned (trace w) ++ [(now w, Args cmd)]).
Proof.
  intros cmd w. split; [split|].
  - unfold loggedRun, cmd_Run, log_Printf, emit. cbn [trace fs cwd now spawn].
    intros H.
    destruct (spawn w (Args cmd)) as [|e|code out errout elapsed] eqn:Hs.
    + simpl in H. rewrite !logged_app in H. simpl in H.
      rewrite <- app_assoc in H. apply app_inv_head in H. discriminate.
    + destruct (deadline (Ctx cmd) <=? now w)%Z; simpl in H;
        rewrite !logged_app in H; simpl in H;
        rewrite <- app_assoc in H; apply app_inv_head in H; discriminate.
    + destruct (deadline (Ctx cmd) <=? now w)%Z eqn:Hd.
      * simpl in H. rewrite !logged_app in H. simpl in H.
        rewrite <- app_assoc in H. apply app_inv_head in H. discriminate.
      * destruct (now w + Z.max 0 elapsed <? deadline (Ctx cmd))%Z eqn:Hf.
        -- destruct (code =? 0)%Z eqn:Hc.
           ++ apply Z.eqb_eq in Hc. subst code. exists out, errout, elapsed.
              split; [reflexivity|]. split; lia.
           ++ simpl in H. rewrite !logged_app in H. simpl in H.
              rewrite <- !app_assoc in H. apply app_inv_head in H. discriminate.
        -- simpl in H. rewrite !logged_app in H. simpl in H.
           rewrite <- !app_assoc in H. apply app_inv_head in H. discriminate.
  - intros (out & errout & elapsed & Hs & Hd & Hf).
    unfold loggedRun, cmd_Run, log_Printf, emit. cbn [trace fs cwd now spawn].
    rewrite Hs.
    assert (Hd' : (deadline (Ctx cmd) <=? now w)%Z = false) by lia.
    assert (Hf' : (now w + Z.max 0 elapsed <? deadline (Ctx cmd))%Z = true) by lia.
    rewrite Hd', Hf'. simpl. rewrite !logged_app. simpl. rewrite app_nil_r. reflexivity.
  - intros out errout elapsed Hs Hd Hf.
    unfold loggedRun, cmd_Run, log_Printf, emit. cbn [trace fs cwd now spawn].
    rewrite Hs.
    assert (Hd' : (deadline (Ctx cmd) <=? now w)%Z = false) by lia.
    assert (Hf' : (now w + Z.max 0 elapsed <? deadline (Ctx cmd))%Z = true) by lia.
    rewrite Hd', Hf'. simpl. rewrite !spawned_app. simpl. rewrite app_nil_r. auto.
Qed.

Lemma loggedRun_quiet_iff_clean_exit_witness :
  let cmd := exec_CommandContext (mkContext 5000) "echo" ["-n"; "1"] in
  let w := bare_world (fun _ => Exited 0 "1" "" 10) in
  snd (loggedRun cmd w) = ("1", "")
  /\ logged (trace (fst (loggedRun cmd w))) = [LogRun ["echo"; "-n"; "1"]].
Proof.
  cbv zeta.
  destruct (loggedRun_quiet_iff_clean_exit
              (exec_CommandContext (mkContext 5000) "echo" ["-n"; "1"])
              (bare_world (fun _ => Exited 0 "1" "" 10))) as [[_ Hq] Hr].
  split.
  - destruct (Hr "1" "" 10%Z) as (H & _); [reflexivity|simpl; lia|simpl; lia|exact H].
  - apply Hq. exists "1", "", 10%Z. split; [reflexivity|]. simpl. lia.
Defined.

(* ================================================================= *)
(** * The repository path *)

Lemma no_slash_numeral d : no_slash (NilEmpty.string_of_uint d) = true.
Proof. induction d; simpl; auto. Qed.

Lemma no_slash_FormatUint n : no_slash (strconv_FormatUint n) = true.
Proof.
  unfold strconv_FormatUint, NilZero.string_of_uint.
  destruct (N.to_uint n) eqn:E; try reflexivity; rewrite <- E at 1;
    rewrite E; apply no_slash_numeral.
Qed.

Lemma no_slash_app a b : no_slash (a ++ b) = no_slash a && no_slash b.
Proof.
  induction a as [|c a IH]; simpl; [reflexivity|].
  rewrite IH, andb_assoc. reflexivity.
Qed.

Lemma repo_entry_is_name id : is_name (fmt_Sprintf_d_git id) = true.
Proof.
  unfold is_name, fmt_Sprintf_d_git.
  pose proof (FormatUint_nonempty id) as Hne.
  pose proof (no_slash_FormatUint id) as Hns.
  destruct (strconv_FormatUint id) as [|c s]; [congruence|].
  rewrite no_slash_app, Hns. cbn [append].
  rewrite !andb_true_iff, !negb_true_iff, !String.eqb_neq.
  repeat split; try discriminate.
  - intros H. injection H as _ H. destruct s; discriminate.
  - intros H. injection H as _ H. destruct s as [|c2 s]; [discriminate|].
    injection H as _ H. destruct s; discriminate.
Qed.

Lemma FormatUint_injective a b : strconv_FormatUint a = strconv_FormatUint b -> a = b.
Proof.
  intros H. pose proof (FormatUint_decimal a) as Ha.
  rewrite H, FormatUint_decimal in Ha. congruence.
Qed.

Lemma list_ascii_of_string_app a b :
  list_ascii_of_string (a ++ b) = list_ascii_of_string a ++ list_ascii_of_string b.
Proof. induction a as [|c a IH]; simpl; [reflexivity|]. rewrite IH. reflexivity. Qed.

Lemma append_inv_tail a b t : (a ++ t)%string = (b ++ t)%string -> a = b.
Proof.
  intros H. apply (f_equal list_ascii_of_string) in H.
  rewrite !list_ascii_of_string_app in H. apply app_inv_tail in H.
  rewrite <- (string_of_list_ascii_of_string a), <- (string_of_list_ascii_of_string b).
  congruence.
Qed.

Lemma repo_entry_injective a b : fmt_Sprintf_d_git a = fmt_Sprintf_d_git b -> a = b.
Proof.
  unfold fmt_Sprintf_d_git. intros H.
  apply FormatUint_injective, (append_inv_tail _ _ ".git"). exact H.
Qed.

(** The working directory as [os.Getwd] prints it leads back to itself. *)
Lemma getwd_elements l :
  Forall (fun e => is_name e = true) l ->
  clean_elements true (elements ("/" ++ join_sep l)) [] = rev l.
Proof.
  intros H.
  change (elements ("/" ++ join_sep l)) with ("" :: elements (join_sep l)).
  change (clean_elements true ("" :: ?x) []) with (clean_elements true x []).
  destruct l as [|x l]; [reflexivity|].
  rewrite elements_join_sep;
    [|discriminate
     |eapply Forall_impl; [|exact H]; intros a Ha; apply is_name_spec in Ha; tauto].
  rewrite clean_elements_names by assumption. apply app_nil_r.
Qed.

(** [filepath.Abs] gives an absolute path that leads where the path it
    was given leads. *)
Lemma filepath_Abs_leads_the_same path w p :
  filepath_Abs path w = Ok p -> path <> "" ->
  Forall (fun e => is_name e = true) (cwd w) ->
  filepath_IsAbs p = true /\ resolve w p = resolve w path.
Proof.
  intros H Hp Hc. unfold filepath_Abs in H.
  destruct (filepath_IsAbs path) eqn:Habs.
  - injection H as <-. split; [rewrite Clean_IsAbs; assumption|].
    apply resolve_Clean. assumption.
  - unfold os_Getwd in H. destruct (is_dir _); [|discriminate].
    injection H as <-.
    set (wd := ("/" ++ join_sep (cwd w))%string).
    assert (Hwd : filepath_IsAbs wd = true) by (unfold wd; cbn [append]; apply IsAbs_cons).
    split; [apply (Join_absolute wd path Hwd)|].
    assert (Hj : filepath_Join [wd; path] = filepath_Clean (wd ++ "/" ++ path))
      by reflexivity.
    change (String "/" (join_sep (cwd w))) with wd.
    rewrite Hj, resolve_Clean by discriminate.
    unfold resolve, walk_start. apply String.eqb_neq in Hp. rewrite Hp, Habs.
    assert (Hq : ((wd ++ "/" ++ path)%string =? "") = false)
      by (apply String.eqb_neq; discriminate).
    assert (Hqa : filepath_IsAbs (wd ++ "/" ++ path) = true)
      by (unfold wd; cbn [append]; apply IsAbs_cons).
    rewrite Hq, Hqa, elements_app_sep, walk_app.
    rewrite (walk_rooted (elements wd)) by constructor.
    unfold wd. rewrite (getwd_elements _ Hc). reflexivity.
Qed.

(** X16: the repository path.  The path handed to [git fetch] and to the
    index build is absolute and leads to the entry [RepoID.git] of the
    repo directory; requests with different [RepoID]s get different
    paths, leading to different entries. *)
Theorem repository_path_is_own_entry_of_repo_dir :
  forall opts w pd,
    resolve w (repoDir opts) = Some pd ->
    Forall (fun e => is_name e = true) (cwd w) ->
    (forall req p,
        filepath_Abs (repo_path opts req) w = Ok p ->
        filepath_IsAbs p = true
        /\ resolve w p = Some (pd ++ [(strconv_FormatUint (RepoID req) ++ ".git")%string]))
    /\ (forall req1 req2 p1 p2,
           filepath_Abs (repo_path opts req1) w = Ok p1 ->
           filepath_Abs (repo_path opts req2) w = Ok p2 ->
           RepoID req1 <> RepoID req2 ->
           p1 <> p2 /\ resolve w p1 <> resolve w p2).
Proof.
  intros opts w pd Hd Hc.
  assert (Hne : repoDir opts <> "") by (intros E; rewrite E in Hd; discriminate).
  assert (Hone : forall req p,
             filepath_Abs (repo_path opts req) w = Ok p ->
             filepath_IsAbs p = true
             /\ resolve w p = Some (pd ++ [fmt_Sprintf_d_git (RepoID req)])).
  { intros req p H.
    destruct (filepath_Abs_leads_the_same _ w p H (Join_nonempty _ _ Hne) Hc) as [A R].
    split; [exact A|]. rewrite R. unfold repo_path.
    rewrite (resolve_Join w _ _ Hne (repo_entry_is_name _)), Hd. reflexivity. }
  split; [exact Hone|].
  intros req1 req2 p1 p2 H1 H2 Hid.
  destruct (Hone req1 p1 H1) as [_ R1]. destruct (Hone req2 p2 H2) as [_ R2].
  assert (Hr : resolve w p1 <> resolve w p2).
  { rewrite R1, R2. intros E. injection E as E. apply app_inv_head in E.
    injection E as E. apply Hid, repo_entry_injective, E. }
  split; [|exact Hr]. intros ->. apply Hr. reflexivity.
Qed.

Lemma repository_path_is_own_entry_of_repo_dir_witness :
  resolve sample_world "/srv/data/repos/100.git"
  = Some ["srv"; "data"; "repos"; "100.git"].
Proof.
  destruct (repository_path_is_own_entry_of_repo_dir relative_opts sample_world
              ["srv"; "data"; "repos"] eq_refl ltac:(repeat constructor)) as [H _].
  destruct (H test_req "/srv/data/repos/100.git" eq_refl) as [_ R].
  exact R.
Defined.

(* ================================================================= *)
(** * The children of one run *)

Lemma executeCmd_child ctx name arg w :
  exists o,
    spawned (trace (executeCmd ctx name arg w)) = spawned (trace w) ++ o
    /\ (o = [] \/ o = [(now w, name :: arg)]).
Proof.
  rewrite executeCmd_spawned.
  destruct (deadline ctx <=? now w)%Z; [exists []; auto|].
  destruct (spawn w (name :: arg)); eexists; split; try reflexivity; auto.
Qed.

(** X17: the children of one pipeline run.  When the repository path
    resolves to [p], the processes [indexRepository] starts are, in this
    order, at most one for the clone vector, at most one for the fetch
    vector and at most one for the index-build vector, and no other; a
    later one never starts before an earlier one. *)
Theorem pipeline_children_are_its_stages :
  forall opts req rw w p,
    filepath_Abs (repo_path opts req) w = Ok p ->
    exists o1 o2 o3 t2 t3,
      spawned (trace (fst (indexRepository opts req rw w)))
      = spawned (trace w) ++ o1 ++ o2 ++ o3
      /\ (o1 = [] \/ o1 = [(now w, clone_argv opts req)])
      /\ (o2 = [] \/ o2 = [(t2, fetch_argv p)])
      /\ (o3 = [] \/ o3 = [(t3, index_argv opts p)])
      /\ (now w <= t2 <= t3)%Z.
Proof.
  intros opts req rw w p H.
  rewrite indexRepository_unfold. cbv zeta. rewrite H. cbn [fst].
  set (ctx := context_WithTimeout (indexTimeout opts) w).
  set (w1 := executeCmd ctx "zoekt-git-clone" (tl (clone_argv opts req)) w).
  set (w2 := executeCmd ctx "git" (tl (fetch_argv p)) w1).
  destruct (executeCmd_child ctx "zoekt-git-clone" (tl (clone_argv opts req)) w)
    as (o1 & S1 & O1).
  destruct (executeCmd_child ctx "git" (tl (fetch_argv p)) w1) as (o2 & S2 & O2).
  destruct (executeCmd_child ctx "zoekt-git-index" (tl (index_argv opts p)) w2)
    as (o3 & S3 & O3).
  pose proof (executeCmd_clock ctx "zoekt-git-clone" (tl (clone_argv opts req)) w) as C1.
  pose proof (executeCmd_clock ctx "git" (tl (fetch_argv p)) w1) as C2.
  fold w1 in S1, C1, S2, C2. fold w2 in S2, S3, C2.
  exists o1, o2, o3, (now w1), (now w2).
  split; [rewrite S3, S2, S1, <- !app_assoc; reflexivity|].
  repeat split; try assumption; lia.
Qed.

Lemma pipeline_children_are_its_stages_witness :
  exists o1 o2 o3,
    spawned (trace (fst (indexRepository test_opts test_req newResponseWriter
                           (bare_world all_succeed))))
    = o1 ++ o2 ++ o3
    /\ (o1 = [] \/ o1 = [(0%Z, clone_argv test_opts test_req)]).
Proof.
  destruct (pipeline_children_are_its_stages test_opts test_req newResponseWriter
              (bare_world all_succeed) "/repo_dir/100.git" eq_refl)
    as (o1 & o2 & o3 & t2 & t3 & S & O1 & _).
  exists o1, o2, o3. split; [exact S|exact O1].
Defined.
